(** * Knot diagram construction: graph builder, layout, greedy arc traversal

    Shallow embedding of [Knot] and [generate_knot_pair] from
    扭结的随机生成.py.  Arc identifiers are Python ints ([Z]); a crossing
    is a Python tuple ([list Z], any arity); a PD code is a list of
    crossings.  The [networkx.Graph] used by the source is modelled by
    its two insertion-ordered dictionaries. *)

From Stdlib Require Import ZArith Lia PrimFloat FloatOps SpecFloat Qpower.
From stdpp Require Import gmap list strings.

Local Open Scope Z_scope.
#[local] Set Warnings "-clear-no-such-hyp".

(** ** Python exceptions and the error monad *)

Inductive exn : Type :=
  | IndexError      (* sequence index out of range *)
  | KeyError        (* dict key missing *)
  | ValueError      (* list.remove(x): x not in list *)
  | NetworkXError.  (* G.neighbors(n): n not in the graph *)

Inductive result (A : Type) : Type :=
  | Ok (a : A)
  | Err (e : exn).
Arguments Ok {A} a.
Arguments Err {A} e.

#[global] Instance result_bind : MBind result := λ A B k r,
  match r with
  | Ok a => k a
  | Err e => Err e
  end.

(** Outcome of code that contains a [while] loop, run with a bound on the
    number of loop iterations: [OutOfFuel] is no Python outcome, it says
    that the bound was reached. *)
Inductive comp (A : Type) : Type :=
  | Done (a : A)
  | Raised (e : exn)
  | OutOfFuel.
Arguments Done {A} a.
Arguments Raised {A} e.
Arguments OutOfFuel {A}.

#[global] Instance comp_bind : MBind comp := λ A B k c,
  match c with
  | Done a => k a
  | Raised e => Raised e
  | OutOfFuel => OutOfFuel
  end.

Definition lift {A : Type} (r : result A) : comp A :=
  match r with
  | Ok a => Done a
  | Err e => Raised e
  end.

(** [seq[i]] on a tuple or a list. *)
Definition getitem {A : Type} (l : list A) (i : nat) : result A :=
  match l !! i with
  | Some a => Ok a
  | None => Err IndexError
  end.

(** ** networkx.Graph

    [_node] is the key order of the node dictionary (what [G.nodes()]
    iterates over); [_adj] maps a node to the keys of its neighbour
    dictionary, in insertion order.  Edge attribute dictionaries are always
    empty in this program and are left out. *)

Record Graph : Type := mkGraph {
  _node : list Z;
  _adj : gmap Z (list Z)
}.

Definition empty_graph : Graph := mkGraph [] ∅.

(** [d[k] = {}] on the key sequence of an ordered dict: a new key goes to
    the end, an existing key keeps its place. *)
Definition dict_setitem (k : Z) (d : list Z) : list Z :=
  if bool_decide (k ∈ d) then d else d ++ [k].

(** The "add node if new" step shared by [add_nodes_from] and [add_edge]. *)
Definition add_node (n : Z) (G : Graph) : Graph :=
  if bool_decide (n ∈ _node G) then G
  else mkGraph (_node G ++ [n]) (<[n := []]> (_adj G)).

Definition add_nodes_from (ns : list Z) (G : Graph) : Graph :=
  foldl (λ g n, add_node n g) G ns.

(** [G.add_edge(u, v)]: both end points are added when new, then
    [_adj[u][v]] and [_adj[v][u]] are set. *)
Definition add_edge (u v : Z) (G : Graph) : Graph :=
  let G2 := add_node v (add_node u G) in
  mkGraph (_node G2)
          (alter (dict_setitem u) v (alter (dict_setitem v) u (_adj G2))).

(** [G.neighbors(n)]. *)
Definition neighbors (G : Graph) (n : Z) : result (list Z) :=
  match _adj G !! n with
  | Some nbrs => Ok nbrs
  | None => Err NetworkXError
  end.

(** [G.has_edge(u, v)]. *)
Definition has_edge (G : Graph) (u v : Z) : bool :=
  match _adj G !! u with
  | Some nbrs => bool_decide (v ∈ nbrs)
  | None => false
  end.

(** [G.degree(n)]: a self-loop counts twice. *)
Definition degree (G : Graph) (n : Z) : nat :=
  match _adj G !! n with
  | Some nbrs => (length nbrs + (if bool_decide (n ∈ nbrs) then 1 else 0))%nat
  | None => 0%nat
  end.

(** [G.number_of_edges()]: half the sum of the degrees. *)
Definition number_of_edges (G : Graph) : nat :=
  (sum_list_with (degree G) (_node G) / 2)%nat.

(** [v] is a key of [_adj[u]]. *)
Definition adjacent (G : Graph) (u v : Z) : Prop :=
  ∃ nbrs, _adj G !! u = Some nbrs ∧ v ∈ nbrs.

(** What networkx keeps true of a graph that is only changed through its
    methods. *)
Record graph_wf (G : Graph) : Prop := {
  wf_node_NoDup : NoDup (_node G);
  wf_node_adj : ∀ n, n ∈ _node G ↔ is_Some (_adj G !! n);
  wf_adj_node : ∀ u v, adjacent G u v → v ∈ _node G;
  wf_adj_NoDup : ∀ u nbrs, _adj G !! u = Some nbrs → NoDup nbrs;
  wf_adj_sym : ∀ u v, adjacent G u v → adjacent G v u
}.

Definition total_degree (G : Graph) : nat :=
  sum_list_with (degree G) (_node G).

Definition Crossing : Type := list Z.
Definition PDCode : Type := list Crossing.

Section Knot.

(** Iteration order of a Python [set] of ints, as a function of the
    sequence of [add] calls that built it.  The language only promises
    that the elements of the set come up, each once; the statements below
    assume no more than that the elements are those added. *)
Variable set_iter : list Z → list Z.

(** [numpy.cos] and [numpy.sin] on binary64. *)
Variables np_cos np_sin : float → float.

(** *** Knot.build_graph *)

(** The six [add_edge] calls made for one crossing; the subscripts are
    evaluated call by call, left to right. *)
Definition add_crossing_edges (cross : Crossing) (G : Graph) : result Graph :=
  c0 ← getitem cross 0 ; c1 ← getitem cross 1 ;
  let G := add_edge c0 c1 G in
  c1 ← getitem cross 1 ; c2 ← getitem cross 2 ;
  let G := add_edge c1 c2 G in
  c2 ← getitem cross 2 ; c3 ← getitem cross 3 ;
  let G := add_edge c2 c3 G in
  c3 ← getitem cross 3 ; c0 ← getitem cross 0 ;
  let G := add_edge c3 c0 G in
  c0 ← getitem cross 0 ; c2 ← getitem cross 2 ;
  let G := add_edge c0 c2 G in
  c1 ← getitem cross 1 ; c3 ← getitem cross 3 ;
  Ok (add_edge c1 c3 G).

Fixpoint add_edges_loop (pd : PDCode) (G : Graph) : result Graph :=
  match pd with
  | [] => Ok G
  | cross :: pd' => G' ← add_crossing_edges cross G ; add_edges_loop pd' G'
  end.

Definition build_graph (pd_code : PDCode) : result Graph :=
  let all_arcs := set_iter (concat pd_code) in
  let G := add_nodes_from all_arcs empty_graph in
  add_edges_loop pd_code G.

(** *** Knot.calculate_positions *)

Definition np_pi : float := 0x1.921fb54442d18p+1%float.

(** Conversion of a small count to binary64 (exact below 2^53). *)
Fixpoint float_of_nat (n : nat) : float :=
  match n with
  | O => 0%float
  | S n' => (float_of_nat n' + 1)%float
  end.

(** [numpy.linspace(start, stop, num, endpoint=False)] for [stop ≠ start]:
    [arange(0, num) * ((stop - start) / num) + start]. *)
Definition linspace (start stop : float) (num : nat) : list float :=
  let step := ((stop - start) / float_of_nat num)%float in
  map (λ i, (float_of_nat i * step + start)%float) (seq 0 num).

Definition Point : Type := float * float.

Definition calculate_positions (crossings : nat) : list Point :=
  let angles := linspace 0%float (2 * np_pi)%float crossings in
  map (λ angle, ((np_cos angle * 1.5)%float, (np_sin angle * 1.5)%float)) angles.

(** *** Knot.trace_path *)

(** The [while True] loop.  One unit of [fuel] is one evaluation of the loop
    body, the last one (which breaks) included. *)
Fixpoint trace_loop (fuel : nat) (G : Graph) (path : list Z) (visited : gset Z)
    (current : Z) : comp (list Z) :=
  match fuel with
  | O => OutOfFuel
  | S fuel' =>
      neighbors ← lift (neighbors G current) ;
      let unvisited := filter (λ n, n ∉ visited) neighbors in
      match unvisited with
      | [] => Done path
      | next_arc :: _ =>
          trace_loop fuel' G (path ++ [next_arc]) ({[next_arc]} ∪ visited) next_arc
      end
  end.

(** [path[-1]]. *)
Definition getitem_last {A : Type} (l : list A) : result A :=
  match last l with
  | Some a => Ok a
  | None => Err IndexError
  end.

(** Lines 77 and 78: [if path[0] in neighbors(path[-1]): path.append(path[0])]. *)
Definition close_path (G : Graph) (path : list Z) : result (list Z) :=
  p0 ← getitem path 0 ;
  p_last ← getitem_last path ;
  nbrs ← neighbors G p_last ;
  if bool_decide (p0 ∈ nbrs)
  then p0' ← getitem path 0 ; Ok (path ++ [p0'])
  else Ok path.

Definition trace_path (fuel : nat) (G : Graph) : comp (list Z) :=
  let all_arcs := _node G in
  start_arc ← lift (getitem all_arcs 0) ;
  path ← trace_loop fuel G [start_arc] {[start_arc]} start_arc ;
  lift (close_path G path).

(** *** Knot.__init__ *)

Record Knot : Type := mkKnot {
  name : string;
  pd_code : PDCode;
  crossings : nat;
  graph : Graph;
  positions : list Point;
  path : list Z
}.

Definition Knot_init (fuel : nat) (name : string) (pd_code : PDCode) : comp Knot :=
  let crossings := length pd_code in
  graph ← lift (build_graph pd_code) ;
  let positions := calculate_positions crossings in
  path ← trace_path fuel graph ;
  Done (mkKnot name pd_code crossings graph positions path).

(** *** Knot.get_arc_position *)

Fixpoint get_arc_position_loop (positions : list Point) (i : nat)
    (pd : PDCode) (arc : Z) : result (option Point) :=
  match pd with
  | [] => Ok None
  | cross :: pd' =>
      if bool_decide (arc ∈ cross)
      then p ← getitem positions i ; Ok (Some p)
      else get_arc_position_loop positions (S i) pd' arc
  end.

Definition get_arc_position (self : Knot) (arc : Z) : result (option Point) :=
  get_arc_position_loop (positions self) 0 (pd_code self) arc.

(** *** Knot.draw, lines 96 to 100: the point sequence

    A position is a pair, which Python treats as true; [None] is false. *)
Fixpoint draw_points_loop (self : Knot) (arcs : list Z) (points : list Point)
    : result (list Point) :=
  match arcs with
  | [] => Ok points
  | arc :: arcs' =>
      pos ← get_arc_position self arc ;
      match pos with
      | Some p => draw_points_loop self arcs' (points ++ [p])
      | None => draw_points_loop self arcs' points
      end
  end.

Definition draw_points (self : Knot) : result (list Point) :=
  draw_points_loop self (path self) [].

(** *** KNOT_DEFINITIONS and generate_knot_pair *)

Definition KNOT_DEFINITIONS : list (string * PDCode) :=
  [ ("Unknot", [[1; 2; 3; 4]]);
    ("Trefoil", [[1; 2; 3; 4]; [5; 6; 7; 8]; [9; 10; 11; 12]]);
    ("FigureEight", [[1; 2; 3; 4]; [5; 6; 7; 8]; [9; 10; 11; 12];
                     [13; 14; 15; 16]]);
    ("Cinquefoil", [[1; 2; 3; 4]; [5; 6; 7; 8]; [9; 10; 11; 12];
                    [13; 14; 15; 16]; [17; 18; 19; 20]]);
    ("6₁", [[1; 2; 3; 4]; [5; 6; 7; 8]; [9; 10; 11; 12];
            [13; 14; 15; 16]; [17; 18; 19; 20]; [21; 22; 23; 24]]);
    ("7₄", [[1; 2; 3; 4]; [5; 6; 7; 8]; [9; 10; 11; 12];
            [13; 14; 15; 16]; [17; 18; 19; 20]; [21; 22; 23; 24];
            [25; 26; 27; 28]]);
    ("8₁₉", [[1; 2; 3; 4]; [5; 6; 7; 8]; [9; 10; 11; 12];
             [13; 14; 15; 16]; [17; 18; 19; 20]; [21; 22; 23; 24];
             [25; 26; 27; 28]; [29; 30; 31; 32]]);
    ("9₄₂", [[1; 2; 3; 4]; [5; 6; 7; 8]; [9; 10; 11; 12];
             [13; 14; 15; 16]; [17; 18; 19; 20]; [21; 22; 23; 24];
             [25; 26; 27; 28]; [29; 30; 31; 32]; [33; 34; 35; 36]]);
    ("10₁₆₁", [[1; 2; 3; 4]; [5; 6; 7; 8]; [9; 10; 11; 12];
               [13; 14; 15; 16]; [17; 18; 19; 20]; [21; 22; 23; 24];
               [25; 26; 27; 28]; [29; 30; 31; 32]; [33; 34; 35; 36];
               [37; 38; 39; 40]]) ].

(** [d[key]] on a dict given by its items. *)
Fixpoint dict_getitem {V : Type} (d : list (string * V)) (key : string) : result V :=
  match d with
  | [] => Err KeyError
  | (k, v) :: d' => if bool_decide (k = key) then Ok v else dict_getitem d' key
  end.

(** [l.remove(x)]: drops the first occurrence. *)
Fixpoint list_remove (x : string) (l : list string) : result (list string) :=
  match l with
  | [] => Err ValueError
  | y :: l' =>
      if bool_decide (y = x) then Ok l'
      else l'' ← list_remove x l' ; Ok (y :: l'')
  end.

(** The values drawn from [random] during one call: the position picked
    by each [random.choice], and the two positions picked by
    [random.sample(knot_types, 2)], which samples without replacement. *)
Record Draws : Type := mkDraws {
  draw_equivalent : nat;
  draw_knot_type : nat;
  draw_sample : nat * nat
}.

Definition valid_draws (n_types : nat) (d : Draws) : Prop :=
  (draw_equivalent d < 2)%nat ∧ (draw_knot_type d < n_types)%nat ∧
  (fst (draw_sample d) < n_types)%nat ∧ (snd (draw_sample d) < n_types)%nat ∧
  fst (draw_sample d) ≠ snd (draw_sample d).

Definition generate_knot_pair (fuel : nat) (d : Draws) : comp (Knot * Knot * bool) :=
  knot_types ← lift (list_remove "Unknot" (map fst KNOT_DEFINITIONS)) ;
  equivalent ← lift (getitem [true; false] (draw_equivalent d)) ;
  if (equivalent : bool) then
    knot_type ← lift (getitem knot_types (draw_knot_type d)) ;
    pd ← lift (dict_getitem KNOT_DEFINITIONS knot_type) ;
    knot1 ← Knot_init fuel knot_type pd ;
    pd ← lift (dict_getitem KNOT_DEFINITIONS knot_type) ;
    knot2 ← Knot_init fuel knot_type pd ;
    Done (knot1, knot2, equivalent)
  else
    knot_type1 ← lift (getitem knot_types (fst (draw_sample d))) ;
    knot_type2 ← lift (getitem knot_types (snd (draw_sample d))) ;
    pd1 ← lift (dict_getitem KNOT_DEFINITIONS knot_type1) ;
    knot1 ← Knot_init fuel knot_type1 pd1 ;
    pd2 ← lift (dict_getitem KNOT_DEFINITIONS knot_type2) ;
    knot2 ← Knot_init fuel knot_type2 pd2 ;
    Done (knot1, knot2, equivalent).

End Knot.

(** ** Sample inputs, for running the model

    One admissible set iteration order, and truncated Taylor series in place
    of the libm functions; no statement depends on which ones are taken. *)
Definition set_iter_sample : list Z → list Z := remove_dups.

(** Two more admissible orders: the first element first and the others from
    the back; and all from the back. *)
Definition set_iter_other (l : list Z) : list Z :=
  match remove_dups l with
  | [] => []
  | x :: r => x :: reverse r
  end.

Definition set_iter_reversed (l : list Z) : list Z := reverse (remove_dups l).

(** [sum] plus the next [n] terms of an alternating power series in [x],
    where [term] is the term of degree [k] and [x2] is [x * x]. *)
Fixpoint alt_series (n : nat) (term sum x2 k : float) : float :=
  match n with
  | O => sum
  | S n' =>
      let term' := (- term * x2 / ((k + 1) * (k + 2)))%float in
      alt_series n' term' (sum + term')%float x2 (k + 2)%float
  end.

Definition cos_sample (x : float) : float := alt_series 20 1 1 (x * x) 0.

Definition sin_sample (x : float) : float := alt_series 20 x x (x * x) 1.



(** Two crossings that share the arcs 3 and 4. *)
Definition sample_pd : PDCode := [[1; 2; 3; 4]; [3; 4; 5; 6]].

Definition sample_graph : Graph :=
  Eval vm_compute in
    match build_graph set_iter_sample sample_pd with
    | Ok G => G
    | Err _ => empty_graph
    end.

Definition unknot_graph : Graph :=
  Eval vm_compute in
    match build_graph set_iter_sample [[1; 2; 3; 4]] with
    | Ok G => G
    | Err _ => empty_graph
    end.

Definition sample_knot : Knot :=
  Eval vm_compute in
    match Knot_init set_iter_sample cos_sample sin_sample 6 "sample" sample_pd with
    | Done k => k
    | _ => mkKnot "" [] 0 empty_graph [] []
    end.

Definition sample_knot_other : Knot :=
  Eval vm_compute in
    match Knot_init set_iter_other cos_sample sin_sample 9 "B" sample_pd with
    | Done k => k
    | _ => mkKnot "" [] 0 empty_graph [] []
    end.

(** ** Vocabulary of the statements *)

(** The two graphs have the same neighbour dictionaries and the same nodes,
    the nodes in whatever order. *)
Definition same_up_to_node_order (G1 G2 : Graph) : Prop :=
  _adj G1 = _adj G2 ∧ ∀ x, x ∈ _node G1 ↔ x ∈ _node G2.

(** The pairs handed to [add_edge] for one crossing, in call order. *)
Definition crossing_edges (cross : Crossing) : list (Z * Z) :=
  match cross with
  | a :: b :: c :: d :: _ => [(a, b); (b, c); (c, d); (d, a); (a, c); (b, d)]
  | _ => []
  end.

(** [{u, v}] is one of the pairs of [cross]. *)
Definition crossing_joins (cross : Crossing) (u v : Z) : Prop :=
  (u, v) ∈ crossing_edges cross ∨ (v, u) ∈ crossing_edges cross.

(** Every two neighbouring entries of [w] are joined by an edge of [G]. *)
Definition consecutive_edges (G : Graph) (w : list Z) : Prop :=
  ∀ i u v, w !! i = Some u → w !! S i = Some v → has_edge G u v = true.

(** The state the loop of [trace_path] keeps between iterations. *)
Record loop_inv (G : Graph) (path : list Z) (visited : gset Z) (current : Z)
    : Prop := {
  inv_last : last path = Some current;
  inv_NoDup : NoDup path;
  inv_visited : ∀ x, x ∈ visited ↔ x ∈ path;
  inv_nodes : ∀ x, x ∈ path → x ∈ _node G;
  inv_walk : consecutive_edges G path
}.

(** The mapping rule in the words of the specification: the position of
    the first crossing, in PD-code order, whose tuple contains [arc]. *)
Definition first_crossing_position (pd : PDCode) (positions : list Point)
    (arc : Z) : option Point :=
  '(i, _) ← list_find (λ cross, arc ∈ cross) pd ; positions !! i.

(** The index of the first crossing that contains [arc]. *)
Definition first_crossing_at (pd : PDCode) (arc : Z) (i : nat) : Prop :=
  (∃ cross, pd !! i = Some cross ∧ arc ∈ cross) ∧
  ∀ j cross', (j < i)%nat → pd !! j = Some cross' → arc ∉ cross'.

(** The names left after [knot_types.remove("Unknot")]. *)
Definition knot_types : list string :=
  ["Trefoil"; "FigureEight"; "Cinquefoil"; "6₁"; "7₄"; "8₁₉"; "9₄₂"; "10₁₆₁"].

(** Any two nodes are joined by a chain of edges. *)
Definition connected (G : Graph) : Prop :=
  ∀ u v, u ∈ _node G → v ∈ _node G → rtc (adjacent G) u v.

(** The [i]-th crossing (from 0) of every PD code of the dataset. *)
Definition dataset_crossing (i : nat) : Crossing :=
  [4 * Z.of_nat i + 1; 4 * Z.of_nat i + 2; 4 * Z.of_nat i + 3; 4 * Z.of_nat i + 4].

(** A crossing as the data model wants it: four identifiers, all different. *)
Definition valid_crossing (cross : Crossing) : Prop :=
  length cross = 4%nat ∧ NoDup cross.

#[global] Instance valid_crossing_dec cross : Decision (valid_crossing cross).
Proof. unfold valid_crossing. apply _. Defined.







(** The crossings are valid and no identifier is in two of them. *)
Definition disjoint_crossings (pd : PDCode) : Prop :=
  Forall valid_crossing pd ∧
  ∀ cross cross' x,
    cross ∈ pd → cross' ∈ pd → x ∈ cross → x ∈ cross' → cross = cross'.


(** ** The rest of [Knot.draw], and [main]

    The axes object is modelled by the sequence of calls made on it, the
    console by the sequence of messages printed. *)

(** Exceptions met by the drawing and the quiz loop, all of class
    [Exception]: those above, the division by zero of the score line, and
    whatever scipy, matplotlib or [input] raise. *)
Inductive raised : Type :=
  | Std (e : exn)
  | ZeroDivisionError
  | External (what : string).

(** Outcome of a call into a library or into the terminal. *)
Inductive outcome (A : Type) : Type :=
  | Returns (a : A)
  | Raises (e : raised).
Arguments Returns {A} a.
Arguments Raises {A} e.

(** One positional argument of [ax.plot]: a number or a sequence. *)
Inductive PlotArg : Type :=
  | Scalar (x : float)
  | Array (xs : list float).

(** The keyword arguments the source passes to [ax.plot]. *)
Record PlotKw : Type := mkPlotKw {
  lw : option Z;
  alpha : option float;
  markersize : option Z;
  markerfacecolor : option string;
  markeredgecolor : option string;
  zorder : option Z
}.

Inductive AxCall : Type :=
  | set_aspect (aspect : string)
  | axis (arg : string)
  | set_title (label : string) (fontsize : Z)
  | plot (x y : PlotArg) (fmt : string) (kw : PlotKw)
  | set_xlim (left right : Z)
  | set_ylim (bottom top : Z).

(** The binary64 values of the literals 0.1, 0.03, 0.6 and 0.9. *)
Definition lit_0_1 : float := 0x1.999999999999ap-4%float.
Definition lit_0_03 : float := 0x1.eb851eb851eb8p-6%float.
Definition lit_0_6 : float := 0x1.3333333333333p-1%float.
Definition lit_0_9 : float := 0x1.ccccccccccccdp-1%float.

(** ['b-', lw=2, alpha=0.6]; ['r-', lw=3, alpha=0.9]; the marker; ['k-',
    lw=2, zorder=5]. *)
Definition mesh_kw : PlotKw := mkPlotKw (Some 2) (Some lit_0_6) None None None None.
Definition path_kw : PlotKw := mkPlotKw (Some 3) (Some lit_0_9) None None None None.
Definition marker_kw : PlotKw :=
  mkPlotKw None None (Some 12) (Some "white") (Some "black") (Some 10).
Definition strand_kw : PlotKw := mkPlotKw (Some 2) None None None None (Some 5).

(** [tuple(sorted([a, b]))]. *)
Definition sorted_pair (a b : nat) : nat * nat :=
  if decide (a ≤ b)%nat then (a, b) else (b, a).

(** Lines 113 to 115: the three edges of one simplex. *)
Definition simplex_edges (simplex : nat * nat * nat) : list (nat * nat) :=
  let '(s0, s1, s2) := simplex in
  [sorted_pair s0 s1; sorted_pair s1 s2; sorted_pair s2 s0].

(** Lines 118 to 121: one translucent line per edge; a subscript out of
    range raises after the lines before it were plotted. *)
Fixpoint draw_mesh (points : list Point) (edges : list (nat * nat))
    (ax : list AxCall) : list AxCall * option raised :=
  match edges with
  | [] => (ax, None)
  | edge :: edges' =>
      match getitem points edge.1 with
      | Err e => (ax, Some (Std e))
      | Ok p1 =>
          match getitem points edge.2 with
          | Err e => (ax, Some (Std e))
          | Ok p2 =>
              draw_mesh points edges'
                (ax ++ [plot (Array [p1.1; p2.1]) (Array [p1.2; p2.2]) "b-" mesh_kw])
          end
      end
  end.

(** Lines 129 to 145: the marker and the three strokes of one crossing. *)
Definition crossing_glyph (pos : Point) : list AxCall :=
  [ plot (Scalar pos.1) (Scalar pos.2) "o" marker_kw;
    plot (Array [pos.1 - lit_0_1; pos.1 + lit_0_1]%float)
         (Array [pos.2 - lit_0_1; pos.2 + lit_0_1]%float) "k-" strand_kw;
    plot (Array [pos.1 - lit_0_1; pos.1 - lit_0_03]%float)
         (Array [pos.2 + lit_0_1; pos.2 + lit_0_03]%float) "k-" strand_kw;
    plot (Array [pos.1 + lit_0_03; pos.1 + lit_0_1]%float)
         (Array [pos.2 - lit_0_03; pos.2 - lit_0_1]%float) "k-" strand_kw ].

(** What is printed or shown; the percentage of the score lines is left
    out. *)
Inductive Message : Type :=
  | Banner                                      (* lines 200 to 208 *)
  | Figure (ax1 ax2 : list AxCall)              (* plt.show() *)
  | AnswerCorrect                               (* line 242 *)
  | AnswerWrongEquivalent (name : string)       (* line 246 *)
  | AnswerWrongDifferent (nameA nameB : string) (* line 248 *)
  | CurrentScore (score total : nat)            (* line 251 *)
  | InvalidInput                                (* line 234 *)
  | ErrorCaught (e : raised)                    (* lines 253 and 254 *)
  | PracticeOver                                (* line 257 *)
  | FinalScore (score total : nat).             (* line 259 *)

(** What one pass through the loop of [main] meets from outside: the random
    draws, whether [plt.subplots] raises, whether [plt.tight_layout] or
    [plt.show] raises, and what [input] returns or raises. *)
Record Round : Type := mkRound {
  round_draws : Draws;
  round_subplots : option raised;
  round_show : option raised;
  round_input : outcome string
}.

(** How the body of the [try] ends. *)
Inductive Control : Type :=
  | Next                 (* fell through, or [continue] *)
  | Break
  | Except (e : raised).

(** [score/total*100]: only whether the division raises is modelled. *)
Definition score_line (score total : nat) : outcome Message :=
  if decide (total = 0%nat) then Raises ZeroDivisionError
  else Returns (CurrentScore score total).

(** Lines 230 to 251, from the normalised input on; the result is how the
    body ends, the new [score] and [total], and what was printed. *)
Definition judge (user_input : string) (equivalent : bool) (name1 name2 : string)
    (score total : nat) : Control * nat * nat * list Message :=
  if bool_decide (user_input = "q") then (Break, score, total, [])
  else if bool_decide (user_input ∉ ["y"; "n"]) then
    (Next, score, total, [InvalidInput])
  else
    let user_equivalent := bool_decide (user_input = "y") in
    let correct := bool_decide (user_equivalent = equivalent) in
    let '(score, out) :=
      if correct then (S score, [AnswerCorrect])
      else if equivalent then (score, [AnswerWrongEquivalent name1])
      else (score, [AnswerWrongDifferent name1 name2]) in
    let total := S total in
    match score_line score total with
    | Returns m => (Next, score, total, out ++ [m])
    | Raises e => (Except e, score, total, out)
    end.

Section Quiz.

Variable set_iter : list Z → list Z.
Variables np_cos np_sin : float → float.

(** [scipy.spatial.Delaunay(points).simplices], or what the call raises. *)
Variable Delaunay : list Point → outcome (list (nat * nat * nat)).

(** Iteration order of the Python [set] of edges, as a function of the
    sequence of [add] calls. *)
Variable edge_iter : list (nat * nat) → list (nat * nat).

(** [str.strip] and [str.lower]. *)
Variables str_strip str_lower : string → string.

(** *** Knot.draw *)

Definition draw (self : Knot) (title : string) (ax : list AxCall)
    : list AxCall * option raised :=
  let ax := ax ++ [set_aspect "equal"; axis "off";
                   set_title (String.append title (String.append ": " (name self))) 12] in
  match draw_points self with
  | Err e => (ax, Some (Std e))
  | Ok [] => (ax, None)
  | Ok points =>
      let '(ax, exc) :=
        if bool_decide (3 < length points)%nat then
          match Delaunay points with
          | Raises e => (ax, Some e)
          | Returns simplices =>
              let edges := edge_iter (concat (map simplex_edges simplices)) in
              draw_mesh points edges ax
          end
        else (ax, None) in
      match exc with
      | Some e => (ax, Some e)
      | None =>
          let ax := ax ++ [plot (Array (map fst points)) (Array (map snd points))
                             "r-" path_kw] in
          let ax := ax ++ concat (map crossing_glyph (positions self)) in
          (ax ++ [set_xlim (-2) 2; set_ylim (-2) 2], None)
      end
  end.

(** *** main *)

(** The body of the [try], lines 215 to 251. *)
Definition main_try (fuel : nat) (r : Round) (score total : nat)
    : comp (Control * nat * nat * list Message) :=
  match generate_knot_pair set_iter np_cos np_sin fuel (round_draws r) with
  | OutOfFuel => OutOfFuel
  | Raised e => Done (Except (Std e), score, total, [])
  | Done (knot1, knot2, equivalent) =>
      match round_subplots r with
      | Some e => Done (Except e, score, total, [])
      | None =>
          match draw knot1 "扭结 A" [] with
          | (_, Some e) => Done (Except e, score, total, [])
          | (ax1, None) =>
              match draw knot2 "扭结 B" [] with
              | (_, Some e) => Done (Except e, score, total, [])
              | (ax2, None) =>
                  match round_show r with
                  | Some e => Done (Except e, score, total, [])
                  | None =>
                      match round_input r with
                      | Raises e => Done (Except e, score, total, [Figure ax1 ax2])
                      | Returns raw =>
                          let user_input := str_lower (str_strip raw) in
                          let '(c, score, total, out) :=
                            judge user_input equivalent (name knot1) (name knot2)
                                  score total in
                          Done (c, score, total, Figure ax1 ax2 :: out)
                      end
                  end
              end
          end
      end
  end.

(** The [while True] loop over the rounds that are given; the first
    component says whether the loop was left through [break]. *)
Fixpoint main_loop (fuel : nat) (rounds : list Round) (score total : nat)
    (out : list Message) : comp (bool * nat * nat * list Message) :=
  match rounds with
  | [] => Done (false, score, total, out)
  | r :: rounds' =>
      '(c, score, total, printed) ← main_try fuel r score total ;
      match c with
      | Break => Done (true, score, total, out ++ printed)
      | Next => main_loop fuel rounds' score total (out ++ printed)
      | Except e =>
          main_loop fuel rounds' score total (out ++ printed ++ [ErrorCaught e])
      end
  end.

Definition main (fuel : nat) (rounds : list Round)
    : comp (bool * nat * nat * list Message) :=
  '(quit, score, total, out) ← main_loop fuel rounds 0 0 [Banner] ;
  if (quit : bool) then
    let out := out ++ [PracticeOver] in
    if bool_decide (0 < total)%nat
    then Done (quit, score, total, out ++ [FinalScore score total])
    else Done (quit, score, total, out)
  else Done (quit, score, total, out).

End Quiz.

(** The mesh line that [draw] plots for an edge between two indices of the
    point sequence that are in range. *)
Definition mesh_line (points : list Point) (edge : nat * nat) : AxCall :=
  let origin : Point := (0%float, 0%float) in
  let p1 := match points !! edge.1 with Some p => p | None => origin end in
  let p2 := match points !! edge.2 with Some p => p | None => origin end in
  plot (Array [p1.1; p2.1]) (Array [p1.2; p2.2]) "b-" mesh_kw.

(** Score lines and "correct" lines of a transcript. *)
Definition is_score_line (m : Message) : bool :=
  match m with CurrentScore _ _ => true | _ => false end.

Definition is_correct_line (m : Message) : bool :=
  match m with AnswerCorrect => true | _ => false end.

Definition count_lines (f : Message → bool) (out : list Message) : nat :=
  length (List.filter f out).

(** What the transcript and the two counters of [main] satisfy between
    rounds. *)
Definition score_inv (score total : nat) (out : list Message) : Prop :=
  (score ≤ total)%nat ∧
  total = count_lines is_score_line out ∧
  score = count_lines is_correct_line out ∧
  (∀ a b, CurrentScore a b ∈ out → (1 ≤ b ∧ a ≤ b ∧ b ≤ total)%nat) ∧
  (∀ a b, FinalScore a b ∉ out) ∧ PracticeOver ∉ out.

(** The calls with which [draw] starts and, when it does not raise, ends. *)
Definition draw_header (title name : string) : list AxCall :=
  [set_aspect "equal"; axis "off";
   set_title (String.append title (String.append ": " name)) 12].

Definition draw_body (points positions : list Point) : list AxCall :=
  [plot (Array (map fst points)) (Array (map snd points)) "r-" path_kw] ++
  concat (map crossing_glyph positions) ++
  [set_xlim (-2) 2; set_ylim (-2) 2].

(** ** Sample stand-ins for the libraries, for running [draw] and [main]

    A triangulation that returns two triangles over the first four points,
    one that always fails, an edge order, and string functions that leave
    their argument alone. *)
Definition Delaunay_two_triangles (points : list Point)
    : outcome (list (nat * nat * nat)) :=
  Returns [(0, 1, 2); (1, 2, 3)]%nat.

Definition Delaunay_fails (points : list Point)
    : outcome (list (nat * nat * nat)) :=
  Raises (External "QhullError").

Definition edge_iter_sample : list (nat * nat) → list (nat * nat) := remove_dups.

Definition str_same (s : string) : string := s.






Definition trefoil_pd : PDCode := [[1; 2; 3; 4]; [5; 6; 7; 8]; [9; 10; 11; 12]].

Definition trefoil_knot : Knot :=
  Eval vm_compute in
    match Knot_init set_iter_sample cos_sample sin_sample 12 "Trefoil" trefoil_pd with
    | Done k => k
    | _ => mkKnot "" [] 0 empty_graph [] []
    end.

Definition long_tuple_graph : Graph :=
  Eval vm_compute in
    match build_graph set_iter_sample [[1; 2; 3; 4; 5]] with
    | Ok G => G
    | Err _ => empty_graph
    end.

Definition sample_graph_reordered : Graph :=
  Eval vm_compute in
    match build_graph set_iter_sample [[3; 4; 5; 6]; [1; 2; 3; 4]; [3; 4; 5; 6]] with
    | Ok G => G
    | Err _ => empty_graph
    end.

Definition sample_graph_permuted : Graph :=
  Eval vm_compute in
    match build_graph set_iter_sample [[2; 4; 1; 3]; [6; 5; 4; 3]] with
    | Ok G => G
    | Err _ => empty_graph
    end.

(** An equivalent pair answered "y", an answer that is neither "y" nor "n",
    a different pair answered "y", and "q". *)
Definition sample_rounds : list Round :=
  [ mkRound (mkDraws 0 0 (0%nat, 1%nat)) None None (Returns "y");
    mkRound (mkDraws 1 0 (2%nat, 5%nat)) None None (Returns "maybe");
    mkRound (mkDraws 1 0 (2%nat, 5%nat)) None None (Returns "y");
    mkRound (mkDraws 0 3 (0%nat, 1%nat)) None None (Returns "q") ].

Definition sample_transcript : list Message :=
  Eval vm_compute in
    match main set_iter_sample cos_sample sin_sample Delaunay_two_triangles
               edge_iter_sample str_same str_same 40 sample_rounds with
    | Done (_, _, _, out) => out
    | _ => []
    end.

(** * Facts about the graph operations *)

Section graph_facts.
Implicit Types (G : Graph) (u v n : Z).

Lemma has_edge_adjacent G u v : has_edge G u v = true ↔ adjacent G u v.
Proof.
  unfold has_edge, adjacent. destruct (_adj G !! u) as [nbrs|].
  - rewrite bool_decide_eq_true. split; [eauto|]. by intros (? & [= <-] & ?).
  - split; [done|]. by intros (? & ? & _).
Qed.

Lemma adjacent_is_node G u v : graph_wf G → adjacent G u v → u ∈ _node G.
Proof.
  intros Hwf (nbrs & Hu & _). apply (wf_node_adj G Hwf). eauto.
Qed.

Lemma empty_graph_wf : graph_wf empty_graph.
Proof.
  split; unfold adjacent; simpl.
  - constructor.
  - intros n. rewrite lookup_empty. split; [by intros ?%elem_of_nil | by intros [? ?]].
  - intros u v (? & Hu & _). by rewrite lookup_empty in Hu.
  - intros u nbrs Hu. by rewrite lookup_empty in Hu.
  - intros u v (? & Hu & _). by rewrite lookup_empty in Hu.
Qed.

Lemma dict_setitem_elem k (d : list Z) x : x ∈ dict_setitem k d ↔ x ∈ d ∨ x = k.
Proof.
  unfold dict_setitem. case_bool_decide as Hk.
  - naive_solver.
  - rewrite elem_of_app, list_elem_of_singleton. done.
Qed.

Lemma dict_setitem_NoDup k (d : list Z) : NoDup d → NoDup (dict_setitem k d).
Proof.
  intros Hd. unfold dict_setitem. case_bool_decide as Hk; [done|].
  apply NoDup_app. split_and!; [done | | apply NoDup_singleton].
  intros x Hx ->%list_elem_of_singleton. done.
Qed.

Lemma dict_setitem_length k (d : list Z) :
  (length (dict_setitem k d) ≤ S (length d))%nat.
Proof.
  unfold dict_setitem. case_bool_decide; [lia|]. rewrite length_app. simpl. lia.
Qed.

Lemma add_node_nodes n G x : x ∈ _node (add_node n G) ↔ x ∈ _node G ∨ x = n.
Proof.
  unfold add_node. case_bool_decide as Hn; simpl.
  - naive_solver.
  - rewrite elem_of_app, list_elem_of_singleton. done.
Qed.

Lemma add_node_lookup n G x :
  graph_wf G →
  _adj (add_node n G) !! x =
    if decide (x = n ∧ n ∉ _node G) then Some [] else _adj G !! x.
Proof.
  intros Hwf. unfold add_node. case_bool_decide as Hn; simpl.
  - case_decide; naive_solver.
  - rewrite lookup_insert. repeat case_decide; naive_solver.
Qed.

Lemma add_node_adjacent n G u v :
  graph_wf G → adjacent (add_node n G) u v ↔ adjacent G u v.
Proof.
  intros Hwf. unfold adjacent. rewrite add_node_lookup by done.
  case_decide as Hc; [|done]. destruct Hc as [-> Hn].
  split.
  - intros (nbrs & [= <-] & Hv). by apply elem_of_nil in Hv.
  - intros (nbrs & Hu & _). exfalso. apply Hn, (wf_node_adj G Hwf). eauto.
Qed.

Lemma add_node_wf n G : graph_wf G → graph_wf (add_node n G).
Proof.
  intros Hwf. split.
  - unfold add_node. case_bool_decide as Hn; simpl; [apply Hwf|].
    apply NoDup_app. split_and!; [apply Hwf | | apply NoDup_singleton].
    intros x Hx ->%list_elem_of_singleton. done.
  - intros x. rewrite add_node_nodes, add_node_lookup by done.
    case_decide as Hc.
    + destruct Hc as [-> _]. split; eauto.
    + rewrite <- (wf_node_adj G Hwf). split; [|by left].
      intros [?| ->]; [done|]. destruct (decide (n ∈ _node G)); naive_solver.
  - intros u v Huv%add_node_adjacent; [|done].
    apply add_node_nodes. left. by apply (wf_adj_node G Hwf u).
  - intros u nbrs. rewrite add_node_lookup by done.
    case_decide; [intros [= <-]; constructor | apply Hwf].
  - intros u v. rewrite !add_node_adjacent by done. apply Hwf.
Qed.

Lemma add_edge_nodes a b G x :
  x ∈ _node (add_edge a b G) ↔ x ∈ _node G ∨ x = a ∨ x = b.
Proof.
  unfold add_edge. simpl. rewrite !add_node_nodes. tauto.
Qed.

(** The neighbour dictionary of [u] after [add_edge a b]. *)
Lemma add_edge_lookup a b G u nbrs' :
  graph_wf G →
  _adj (add_edge a b G) !! u = Some nbrs' ↔
  ∃ nbrs, _adj (add_node b (add_node a G)) !! u = Some nbrs ∧
    nbrs' = (if decide (b = u) then dict_setitem a else id)
              ((if decide (a = u) then dict_setitem b else id) nbrs).
Proof.
  intros Hwf. unfold add_edge. simpl. rewrite !lookup_alter.
  destruct (_adj (add_node b (add_node a G)) !! u) as [nbrs|] eqn:Hu.
  - repeat case_decide; subst; simpl; rewrite ?Hu; simpl; naive_solver.
  - repeat case_decide; subst; simpl; rewrite ?Hu; simpl; naive_solver.
Qed.

Lemma add_edge_adjacent a b G u v :
  graph_wf G →
  adjacent (add_edge a b G) u v ↔
  adjacent G u v ∨ (u = a ∧ v = b) ∨ (u = b ∧ v = a).
Proof.
  intros Hwf.
  pose proof (add_node_wf b _ (add_node_wf a _ Hwf)) as Hwf2.
  rewrite <- (add_node_adjacent a G u v Hwf).
  rewrite <- (add_node_adjacent b (add_node a G) u v (add_node_wf a _ Hwf)).
  unfold adjacent at 1. setoid_rewrite add_edge_lookup; [|done].
  split.
  - intros (nbrs' & (nbrs & Hu & ->) & Hv).
    repeat case_decide; subst; simpl in Hv;
      rewrite ?dict_setitem_elem in Hv; unfold adjacent; naive_solver.
  - intros Hcase.
    assert (is_Some (_adj (add_node b (add_node a G)) !! u)) as [nbrs Hu].
    { apply (wf_node_adj _ Hwf2).
      destruct Hcase as [Hadj|[[-> _]|[-> _]]].
      - by eapply adjacent_is_node.
      - apply add_node_nodes. left. apply add_node_nodes. by right.
      - apply add_node_nodes. by right. }
    eexists. split; [eauto|].
    destruct Hcase as [(nbrs0 & Hu0 & Hv)|[[-> ->]|[-> ->]]].
    + assert (nbrs0 = nbrs) as -> by congruence.
      repeat case_decide; simpl; rewrite ?dict_setitem_elem; tauto.
    + repeat case_decide; try done; simpl; rewrite ?dict_setitem_elem; tauto.
    + repeat case_decide; try done; simpl; rewrite ?dict_setitem_elem; tauto.
Qed.

Lemma add_edge_wf a b G : graph_wf G → graph_wf (add_edge a b G).
Proof.
  intros Hwf.
  pose proof (add_node_wf b _ (add_node_wf a _ Hwf)) as Hwf2.
  split.
  - apply Hwf2.
  - intros x. unfold add_edge. simpl. rewrite !lookup_alter_is_Some.
    apply Hwf2.
  - intros u v. rewrite add_edge_adjacent, add_edge_nodes by done.
    intros [Hadj|[[_ ->]|[_ ->]]]; [|tauto..].
    left. by apply (wf_adj_node G Hwf u).
  - intros u nbrs' (nbrs & Hu & ->)%add_edge_lookup; [|done].
    apply (wf_adj_NoDup _ Hwf2) in Hu.
    repeat case_decide; simpl; auto using dict_setitem_NoDup.
  - intros u v. rewrite !add_edge_adjacent by done.
    intros [Hadj|[[-> ->]|[-> ->]]]; [|tauto..].
    left. by apply Hwf.
Qed.

(** *** Degrees: every [add_edge] raises the degree sum by at most two *)

Lemma sum_list_with_le {A} (f g : A → nat) (l : list A) :
  (∀ x, x ∈ l → f x ≤ g x)%nat → (sum_list_with f l ≤ sum_list_with g l)%nat.
Proof.
  induction l as [|y l IH]; simpl; intros Hfg; [lia|].
  pose proof (Hfg y ltac:(left)).
  assert (sum_list_with f l ≤ sum_list_with g l)%nat.
  { apply IH. intros x Hx. apply Hfg. by right. }
  lia.
Qed.

Lemma sum_list_with_plus {A} (f g : A → nat) (l : list A) :
  sum_list_with (λ x, f x + g x)%nat l
  = (sum_list_with f l + sum_list_with g l)%nat.
Proof. induction l as [|y l IH]; simpl; lia. Qed.

Lemma sum_list_with_indicator (a : Z) (l : list Z) :
  NoDup l → (sum_list_with (λ x, if decide (x = a) then 1 else 0) l ≤ 1)%nat.
Proof.
  induction 1 as [|y l Hy Hl IH]; simpl; [lia|].
  case_decide as Hya; [|lia]. subst y.
  assert (sum_list_with (λ x, if decide (x = a) then 1%nat else 0%nat) l = 0%nat)
    as ->; [|lia].
  clear IH Hl. induction l as [|z l IH]; simpl; [done|].
  rewrite decide_False, IH; [done| |].
  - intros ?. apply Hy. by right.
  - intros ->. apply Hy. by left.
Qed.

Lemma degree_ext G G' x : _adj G !! x = _adj G' !! x → degree G x = degree G' x.
Proof. unfold degree. by intros ->. Qed.

Lemma add_node_total_degree n G :
  graph_wf G → total_degree (add_node n G) = total_degree G.
Proof.
  intros Hwf. unfold total_degree.
  assert (∀ x, x ∈ _node G → degree (add_node n G) x = degree G x) as Hdeg.
  { intros x Hx. apply degree_ext. rewrite add_node_lookup by done.
    case_decide as Hc; [|done]. destruct Hc as [-> Hn]. done. }
  unfold add_node at 2. case_bool_decide as Hn; simpl.
  - apply Nat.le_antisymm; apply sum_list_with_le; intros x Hx;
      rewrite Hdeg by done; lia.
  - rewrite sum_list_with_app. simpl.
    assert (degree (add_node n G) n = 0%nat) as ->.
    { unfold degree. rewrite add_node_lookup by done.
      by rewrite decide_True. }
    rewrite !Nat.add_0_r.
    apply Nat.le_antisymm; apply sum_list_with_le; intros x Hx;
      rewrite Hdeg by done; lia.
Qed.

Lemma dict_setitem_idemp k (d : list Z) :
  dict_setitem k (dict_setitem k d) = dict_setitem k d.
Proof.
  unfold dict_setitem at 1. rewrite bool_decide_eq_true_2; [done|].
  apply dict_setitem_elem. by right.
Qed.

Lemma dict_setitem_self_loop k (d : list Z) x :
  x ≠ k → bool_decide (x ∈ dict_setitem k d) = bool_decide (x ∈ d).
Proof.
  intros Hne. apply bool_decide_ext. rewrite dict_setitem_elem. tauto.
Qed.

Lemma add_edge_degree a b G x :
  graph_wf G →
  (degree (add_edge a b G) x ≤ degree (add_node b (add_node a G)) x
     + ((if decide (x = a) then 1 else 0) + (if decide (x = b) then 1 else 0)))%nat.
Proof.
  intros Hwf. unfold degree at 1.
  destruct (_adj (add_edge a b G) !! x) as [nbrs'|] eqn:Hx; [|lia].
  apply add_edge_lookup in Hx as (nbrs & Hx & ->); [|done].
  unfold degree. rewrite Hx.
  destruct (decide (x = a)) as [Hxa|Hxa], (decide (x = b)) as [Hxb|Hxb].
  - subst a b. rewrite !decide_True by done. rewrite dict_setitem_idemp.
    pose proof (dict_setitem_length x nbrs).
    repeat case_bool_decide; lia.
  - subst a. rewrite (decide_True (P := x = x)), (decide_False (P := b = x)) by done.
    simpl. rewrite dict_setitem_self_loop by done.
    pose proof (dict_setitem_length b nbrs). lia.
  - subst b. rewrite (decide_True (P := x = x)), (decide_False (P := a = x)) by done.
    simpl. rewrite dict_setitem_self_loop by done.
    pose proof (dict_setitem_length a nbrs). lia.
  - rewrite (decide_False (P := b = x)), (decide_False (P := a = x)) by done.
    simpl. lia.
Qed.

Lemma add_edge_total_degree a b G :
  graph_wf G → (total_degree (add_edge a b G) ≤ total_degree G + 2)%nat.
Proof.
  intros Hwf.
  pose proof (add_node_wf b _ (add_node_wf a _ Hwf)) as Hwf2.
  rewrite <- (add_node_total_degree a G Hwf).
  rewrite <- (add_node_total_degree b _ (add_node_wf a _ Hwf)).
  unfold total_degree. change (_node (add_edge a b G)) with
    (_node (add_node b (add_node a G))).
  etrans.
  { apply sum_list_with_le. intros x _. by apply (add_edge_degree a b G x). }
  rewrite !sum_list_with_plus.
  pose proof (sum_list_with_indicator a _ (wf_node_NoDup _ Hwf2)).
  pose proof (sum_list_with_indicator b _ (wf_node_NoDup _ Hwf2)).
  lia.
Qed.

End graph_facts.

(** * Knot.build_graph *)

Section build_graph_facts.
Implicit Types (G : Graph) (pd : PDCode) (cross : Crossing).

Lemma elem_of_concat (pd : PDCode) (x : Z) :
  x ∈ concat pd ↔ ∃ cross, cross ∈ pd ∧ x ∈ cross.
Proof.
  induction pd as [|c pd IH]; simpl.
  - split; [by intros ?%elem_of_nil | by intros (? & ?%elem_of_nil & _)].
  - rewrite elem_of_app, IH. setoid_rewrite elem_of_cons. naive_solver.
Qed.

Lemma add_nodes_from_wf ns G : graph_wf G → graph_wf (add_nodes_from ns G).
Proof.
  revert G. induction ns as [|n ns IH]; intros G Hwf; simpl; [done|].
  by apply IH, add_node_wf.
Qed.

Lemma add_nodes_from_nodes ns G x :
  x ∈ _node (add_nodes_from ns G) ↔ x ∈ _node G ∨ x ∈ ns.
Proof.
  revert G. induction ns as [|n ns IH]; intros G; simpl.
  - rewrite elem_of_nil. tauto.
  - rewrite IH, add_node_nodes, elem_of_cons. tauto.
Qed.

Lemma add_nodes_from_adjacent ns G u v :
  graph_wf G → adjacent (add_nodes_from ns G) u v ↔ adjacent G u v.
Proof.
  revert G. induction ns as [|n ns IH]; intros G Hwf; simpl; [done|].
  rewrite IH by by apply add_node_wf. by apply add_node_adjacent.
Qed.

Lemma add_nodes_from_total_degree ns G :
  graph_wf G → total_degree (add_nodes_from ns G) = total_degree G.
Proof.
  revert G. induction ns as [|n ns IH]; intros G Hwf; simpl; [done|].
  rewrite IH by by apply add_node_wf. by apply add_node_total_degree.
Qed.

(** The body of the edge loop succeeds exactly on tuples with at least four
    entries, and then uses the first four. *)
Lemma add_crossing_edges_Ok a b c d rest G :
  add_crossing_edges (a :: b :: c :: d :: rest) G =
  Ok (add_edge b d (add_edge a c (add_edge d a
       (add_edge c d (add_edge b c (add_edge a b G)))))).
Proof. reflexivity. Qed.

Lemma add_crossing_edges_short cross G :
  (length cross < 4)%nat → add_crossing_edges cross G = Err IndexError.
Proof.
  destruct cross as [|a [|b [|c [|d rest]]]]; simpl; intros ?; try done. lia.
Qed.

Lemma crossing_long_inv cross :
  (4 ≤ length cross)%nat → ∃ a b c d rest, cross = a :: b :: c :: d :: rest.
Proof.
  destruct cross as [|a [|b [|c [|d rest]]]]; simpl; intros ?; try lia. eauto 6.
Qed.

Lemma add_edges_loop_Ok pd G :
  Forall (λ cross, 4 ≤ length cross)%nat pd → ∃ G', add_edges_loop pd G = Ok G'.
Proof.
  intros Hpd. revert G. induction Hpd as [|cross pd Hc _ IH]; intros G; simpl.
  - eauto.
  - apply crossing_long_inv in Hc as (a & b & c & d & rest & ->).
    rewrite add_crossing_edges_Ok. simpl. apply IH.
Qed.

Lemma add_edges_loop_Ok_inv pd G G' :
  add_edges_loop pd G = Ok G' → Forall (λ cross, 4 ≤ length cross)%nat pd.
Proof.
  revert G. induction pd as [|cross pd IH]; intros G; simpl; [by constructor|].
  destruct (decide (length cross < 4)%nat) as [Hlt|Hge].
  - by rewrite add_crossing_edges_short.
  - destruct (add_crossing_edges cross G) as [G1|e]; simpl; [|done].
    intros HG'. constructor; [lia | by eapply IH].
Qed.

Lemma add_edges_loop_short pd G :
  Exists (λ cross, length cross < 4)%nat pd → add_edges_loop pd G = Err IndexError.
Proof.
  intros Hex. revert G. induction pd as [|cross pd IH]; intros G; simpl.
  - by apply Exists_nil in Hex.
  - destruct (decide (length cross < 4)%nat) as [Hlt|Hge].
    + by rewrite add_crossing_edges_short.
    + apply Exists_cons in Hex as [?|Hex]; [done|].
      destruct (crossing_long_inv cross) as (a & b & c & d & rest & ->); [lia|].
      rewrite add_crossing_edges_Ok. simpl. by apply IH.
Qed.

(** What one crossing does to a well-formed graph. *)
Lemma add_crossing_edges_spec cross G G' :
  graph_wf G → add_crossing_edges cross G = Ok G' →
  graph_wf G' ∧
  (∀ x, x ∈ _node G' ↔ x ∈ _node G ∨ x ∈ take 4 cross) ∧
  (∀ u v, adjacent G' u v ↔ adjacent G u v ∨ crossing_joins cross u v) ∧
  (total_degree G' ≤ total_degree G + 12)%nat.
Proof.
  intros Hwf HG'.
  destruct (decide (length cross < 4)%nat) as [Hlt|Hge].
  { by rewrite add_crossing_edges_short in HG'. }
  destruct (crossing_long_inv cross) as (a & b & c & d & rest & ->); [lia|].
  rewrite add_crossing_edges_Ok in HG'. injection HG' as <-.
  pose proof (add_edge_wf a b _ Hwf) as Hwf1.
  pose proof (add_edge_wf b c _ Hwf1) as Hwf2.
  pose proof (add_edge_wf c d _ Hwf2) as Hwf3.
  pose proof (add_edge_wf d a _ Hwf3) as Hwf4.
  pose proof (add_edge_wf a c _ Hwf4) as Hwf5.
  pose proof (add_edge_wf b d _ Hwf5) as Hwf6.
  split_and!; [done | | |].
  - intros x. rewrite !add_edge_nodes. simpl. rewrite !elem_of_cons, elem_of_nil.
    tauto.
  - intros u v. rewrite !add_edge_adjacent by done.
    unfold crossing_joins, crossing_edges. rewrite !elem_of_cons, !elem_of_nil.
    rewrite !pair_equal_spec. tauto.
  - pose proof (add_edge_total_degree a b _ Hwf).
    pose proof (add_edge_total_degree b c _ Hwf1).
    pose proof (add_edge_total_degree c d _ Hwf2).
    pose proof (add_edge_total_degree d a _ Hwf3).
    pose proof (add_edge_total_degree a c _ Hwf4).
    pose proof (add_edge_total_degree b d _ Hwf5).
    lia.
Qed.

Lemma add_edges_loop_spec pd G G' :
  graph_wf G → add_edges_loop pd G = Ok G' →
  graph_wf G' ∧
  (∀ x, x ∈ _node G' ↔ x ∈ _node G ∨ ∃ cross, cross ∈ pd ∧ x ∈ take 4 cross) ∧
  (∀ u v, adjacent G' u v ↔
          adjacent G u v ∨ ∃ cross, cross ∈ pd ∧ crossing_joins cross u v) ∧
  (total_degree G' ≤ total_degree G + 12 * length pd)%nat.
Proof.
  revert G. induction pd as [|cross pd IH]; intros G Hwf; simpl.
  - intros [= <-]. split_and!; [done | | | lia].
    + intros x. split; [by left|]. by intros [?|(? & ?%elem_of_nil & _)].
    + intros u v. split; [by left|]. by intros [?|(? & ?%elem_of_nil & _)].
  - destruct (add_crossing_edges cross G) as [G1|e] eqn:HG1; simpl; [|done].
    intros HG'.
    apply add_crossing_edges_spec in HG1 as (Hwf1 & Hn1 & Ha1 & Hd1); [|done].
    apply IH in HG' as (Hwf' & Hn' & Ha' & Hd'); [|done].
    split_and!; [done | | | lia].
    + intros x. rewrite Hn', Hn1. setoid_rewrite elem_of_cons. naive_solver.
    + intros u v. rewrite Ha', Ha1. setoid_rewrite elem_of_cons. naive_solver.
Qed.

Lemma valid_crossing_inv cross :
  valid_crossing cross →
  ∃ a b c d, cross = [a; b; c; d] ∧
    a ≠ b ∧ a ≠ c ∧ a ≠ d ∧ b ≠ c ∧ b ≠ d ∧ c ≠ d.
Proof.
  intros [Hlen Hnd].
  destruct cross as [|a [|b [|c [|d [|? ?]]]]]; simplify_eq/=.
  exists a, b, c, d. split; [done|].
  rewrite !NoDup_cons, !elem_of_cons, !elem_of_nil in Hnd. naive_solver.
Qed.

Lemma crossing_joins_valid cross u v :
  valid_crossing cross →
  crossing_joins cross u v ↔ u ≠ v ∧ u ∈ cross ∧ v ∈ cross.
Proof.
  intros (a & b & c & d & -> & Hne)%valid_crossing_inv.
  unfold crossing_joins, crossing_edges.
  rewrite !elem_of_cons, !elem_of_nil, !pair_equal_spec.
  split.
  - intros Hj. split; [naive_solver|]. naive_solver.
  - intros (Huv & Hu & Hv).
    destruct Hu as [->|[->|[->|[->|[]]]]], Hv as [->|[->|[->|[->|[]]]]];
      try done; tauto.
Qed.

End build_graph_facts.

(** * Knot.trace_path *)

Section trace_facts.
Implicit Types (G : Graph) (path w : list Z) (visited : gset Z).

Lemma NoDup_nodes_length G w :
  NoDup w → (∀ x, x ∈ w → x ∈ _node G) → (length w ≤ length (_node G))%nat.
Proof. intros Hnd Hsub. by apply submseteq_length, NoDup_submseteq. Qed.

Lemma consecutive_edges_snoc G path current next_arc :
  last path = Some current → consecutive_edges G path →
  has_edge G current next_arc = true →
  consecutive_edges G (path ++ [next_arc]).
Proof.
  intros Hlast Hwalk Hedge i u v Hu Hv.
  rewrite last_lookup in Hlast.
  assert (S i < length (path ++ [next_arc]))%nat as Hi by by eapply lookup_lt_Some.
  rewrite length_app in Hi. simpl in Hi.
  rewrite lookup_app_l in Hu by lia.
  destruct (decide (S i < length path)%nat) as [Hlt|Hge].
  - rewrite lookup_app_l in Hv by lia. by eapply Hwalk.
  - assert (S i = length path) as HSi by lia.
    rewrite lookup_app_r, HSi, Nat.sub_diag in Hv by lia.
    injection Hv as <-.
    assert (i = pred (length path)) as -> by lia. congruence.
Qed.

(** More fuel does not change an outcome that was reached. *)
Lemma trace_loop_fuel_mono fuel fuel' G path visited current :
  (fuel ≤ fuel')%nat →
  trace_loop fuel G path visited current ≠ OutOfFuel →
  trace_loop fuel' G path visited current = trace_loop fuel G path visited current.
Proof.
  revert fuel' path visited current.
  induction fuel as [|fuel IH]; intros fuel' path visited current Hle; [done|].
  destruct fuel' as [|fuel']; [lia|]. simpl.
  destruct (neighbors G current) as [nbrs|e]; simpl; [|done].
  destruct (filter _ nbrs) as [|next_arc ?]; [done|].
  apply IH. lia.
Qed.

(** The loop on a well-formed graph: it breaks within the number of nodes
    not yet on the path (plus the breaking iteration), and what it returns
    extends the path by a walk that cannot be continued. *)
Lemma trace_loop_spec G fuel path visited current :
  graph_wf G → loop_inv G path visited current →
  (length (_node G) - length path < fuel)%nat →
  ∃ w z, trace_loop fuel G path visited current = Done (path ++ w) ∧
    loop_inv G (path ++ w) (list_to_set (path ++ w)) z ∧
    (∀ v, adjacent G z v → v ∈ path ++ w) ∧
    (length w < fuel)%nat.
Proof.
  intros Hwf. revert path visited current.
  induction fuel as [|fuel IH]; intros path visited current Hinv Hfuel; [lia|].
  destruct Hinv as [Hlast Hnd Hvis Hnodes Hwalk].
  assert (current ∈ _node G) as Hcur.
  { apply Hnodes. by eapply last_Some_elem_of. }
  apply (wf_node_adj G Hwf) in Hcur as [nbrs Hnbrs].
  simpl. unfold neighbors. rewrite Hnbrs. simpl.
  destruct (filter (λ n, n ∉ visited) nbrs) as [|next_arc rest] eqn:Hfilter.
  - exists (@nil Z), current. rewrite app_nil_r. split_and!; [done | | | simpl; lia].
    + split; [done.. | | done | done].
      intros x. by rewrite elem_of_list_to_set.
    + intros v (nbrs' & Hnbrs' & Hv). simplify_eq.
      apply Hvis. destruct (decide (v ∈ visited)) as [|Hnot]; [done|].
      by destruct (filter_nil_not_elem_of _ _ v Hfilter Hnot).
  - assert (next_arc ∈ filter (λ n, n ∉ visited) nbrs) as Hnext.
    { rewrite Hfilter. by left. }
    apply list_elem_of_filter in Hnext as [Hunvisited Hnext].
    assert (adjacent G current next_arc) as Hadj by by exists nbrs.
    assert (NoDup (path ++ [next_arc])) as Hnd'.
    { apply NoDup_app. split_and!; [done | | apply NoDup_singleton].
      intros x Hx ->%list_elem_of_singleton. by apply Hunvisited, Hvis. }
    assert (∀ x, x ∈ path ++ [next_arc] → x ∈ _node G) as Hnodes'.
    { intros x [?| ->%list_elem_of_singleton]%elem_of_app; [by apply Hnodes|].
      by apply (wf_adj_node G Hwf current). }
    pose proof (NoDup_nodes_length G _ Hnd' Hnodes') as Hlen.
    rewrite length_app in Hlen. simpl in Hlen.
    destruct (IH (path ++ [next_arc]) ({[next_arc]} ∪ visited) next_arc)
      as (w & z & Hrun & Hinv' & Hmax & Hsteps).
    { split; [apply last_snoc | done | | done |].
      - intros x. rewrite elem_of_union, elem_of_singleton, Hvis, elem_of_app,
          list_elem_of_singleton. tauto.
      - eapply consecutive_edges_snoc; [done..|]. by apply has_edge_adjacent. }
    { rewrite length_app. simpl. lia. }
    exists (next_arc :: w), z. rewrite <- !app_assoc in *. simpl in *.
    split_and!; [done..|lia].
Qed.

Lemma close_path_spec G s w z :
  graph_wf G → z ∈ _node G → last (s :: w) = Some z →
  close_path G (s :: w) =
    Ok ((s :: w) ++ (if has_edge G z s then [s] else [])).
Proof.
  intros Hwf Hz Hlast. unfold close_path, getitem_last. rewrite Hlast. simpl.
  apply (wf_node_adj G Hwf) in Hz as [nbrs Hnbrs].
  unfold neighbors, has_edge. rewrite Hnbrs. simpl.
  case_bool_decide; simpl; [done|]. by rewrite app_nil_r.
Qed.

(** The whole of [trace_path] on a well-formed graph with at least one
    node. *)
Lemma trace_path_spec G fuel s :
  graph_wf G → head (_node G) = Some s → (length (_node G) ≤ fuel)%nat →
  ∃ w z, trace_path fuel G = Done (w ++ (if has_edge G z s then [s] else [])) ∧
    head w = Some s ∧ loop_inv G w (list_to_set w) z ∧
    (∀ v, adjacent G z v → v ∈ w).
Proof.
  intros Hwf Hs Hfuel. unfold trace_path, getitem.
  rewrite <- head_lookup, Hs. simpl.
  assert (s ∈ _node G) as Hsn by by apply head_Some_elem_of.
  destruct (trace_loop_spec G fuel [s] {[s]} s Hwf) as (w & z & -> & Hinv & Hmax & _).
  { split; [done | apply NoDup_singleton | | |].
    - intros x. by rewrite elem_of_singleton, list_elem_of_singleton.
    - by intros x ->%list_elem_of_singleton.
    - intros i u v Hu Hv. by destruct i. }
  { simpl. destruct (_node G); simpl in *; [done|lia]. }
  simpl. rewrite (close_path_spec G s w z); [|done| |apply Hinv].
  - exists (s :: w), z. by split_and!.
  - apply (inv_nodes _ _ _ _ Hinv). eapply last_Some_elem_of, Hinv.
Qed.

Lemma trace_path_fuel_mono fuel fuel' G :
  (fuel ≤ fuel')%nat → trace_path fuel G ≠ OutOfFuel →
  trace_path fuel' G = trace_path fuel G.
Proof.
  intros Hle. unfold trace_path.
  destruct (getitem (_node G) 0) as [s|e]; simpl; [|done].
  intros Hrun. rewrite (trace_loop_fuel_mono fuel fuel'); [done..|].
  by destruct (trace_loop fuel G [s] {[s]} s).
Qed.

Lemma trace_path_empty G fuel :
  _node G = [] → trace_path fuel G = Raised IndexError.
Proof. unfold trace_path. by intros ->. Qed.

End trace_facts.

Lemma set_iter_sample_NoDup l : NoDup (set_iter_sample l).
Proof. apply NoDup_remove_dups. Qed.

Lemma set_iter_other_elem l x : x ∈ set_iter_other l ↔ x ∈ l.
Proof.
  unfold set_iter_other. rewrite <- (elem_of_remove_dups l).
  destruct (remove_dups l) as [|y r]; [done|].
  by rewrite !elem_of_cons, elem_of_reverse.
Qed.

Lemma set_iter_reversed_elem l x : x ∈ set_iter_reversed l ↔ x ∈ l.
Proof. unfold set_iter_reversed. by rewrite elem_of_reverse, elem_of_remove_dups. Qed.

Lemma set_iter_sample_elem l x : x ∈ set_iter_sample l ↔ x ∈ l.
Proof. apply elem_of_remove_dups. Qed.

(** * The dataset *)

Section dataset_facts.

Lemma KNOT_DEFINITIONS_shape :
  Forall (λ e, Forall (λ cross, 4 ≤ length cross)%nat e.2 ∧ e.2 ≠ [] ∧
               (length (concat e.2) ≤ 40)%nat) KNOT_DEFINITIONS.
Proof.
  unfold KNOT_DEFINITIONS.
  repeat (apply Forall_cons; split;
    [split_and!; [repeat constructor; simpl; lia | done | simpl; lia] |]).
  apply Forall_nil_2.
Qed.

Lemma knot_types_remove :
  list_remove "Unknot" (map fst KNOT_DEFINITIONS) = Ok knot_types.
Proof. reflexivity. Qed.

Lemma knot_types_lookup :
  Forall (λ nm, nm ≠ "Unknot" ∧
                ∃ pd, dict_getitem KNOT_DEFINITIONS nm = Ok pd ∧
                      (nm, pd) ∈ KNOT_DEFINITIONS) knot_types.
Proof.
  unfold knot_types.
  repeat (apply Forall_cons; split;
    [split; [done | eexists; split; [reflexivity | set_solver]] |]).
  apply Forall_nil_2.
Qed.

Lemma knot_types_NoDup : NoDup knot_types.
Proof. apply (bool_decide_unpack (NoDup knot_types)). by vm_compute. Qed.

Lemma KNOT_DEFINITIONS_blocks :
  Forall (λ e, e.2 = dataset_crossing <$> seq 0 (length e.2)) KNOT_DEFINITIONS.
Proof.
  unfold KNOT_DEFINITIONS.
  repeat (apply Forall_cons; split; [reflexivity|]). apply Forall_nil_2.
Qed.

Lemma dataset_crossing_elem i (x : Z) :
  x ∈ dataset_crossing i ↔ 4 * Z.of_nat i + 1 ≤ x ≤ 4 * Z.of_nat i + 4.
Proof.
  unfold dataset_crossing. rewrite !elem_of_cons, elem_of_nil. lia.
Qed.

Lemma dataset_crossing_valid i : valid_crossing (dataset_crossing i).
Proof.
  split; [done|]. unfold dataset_crossing.
  rewrite !NoDup_cons, !elem_of_cons, !elem_of_nil.
  split_and!; try apply NoDup_nil_2; lia.
Qed.

Lemma dataset_pd_elem n cross :
  cross ∈ dataset_crossing <$> seq 0 n ↔
  ∃ i : nat, (i < n)%nat ∧ cross = dataset_crossing i.
Proof.
  rewrite list_elem_of_fmap. setoid_rewrite elem_of_seq. naive_solver lia.
Qed.

Lemma dataset_pd_disjoint n : disjoint_crossings (dataset_crossing <$> seq 0 n).
Proof.
  split.
  - apply Forall_forall. intros cross (i & _ & ->)%dataset_pd_elem.
    apply dataset_crossing_valid.
  - intros cross cross' x (i & _ & ->)%dataset_pd_elem
      (j & _ & ->)%dataset_pd_elem Hi%dataset_crossing_elem
      Hj%dataset_crossing_elem.
    f_equal. lia.
Qed.

End dataset_facts.

(** * Binary64 points on the circle of radius 1.5 *)





(** * The claims about [Knot] and [generate_knot_pair] *)

Section knot_claims.
Context (set_iter : list Z → list Z).
Hypothesis set_iter_elem : ∀ l x, x ∈ set_iter l ↔ x ∈ l.
Context (np_cos np_sin : float → float).
Implicit Types (G : Graph) (pd : PDCode) (cross : Crossing) (k : Knot).

Local Abbreviation Knot_init' := (Knot_init set_iter np_cos np_sin).
Local Abbreviation calculate_positions' := (calculate_positions np_cos np_sin).

Lemma build_graph_Ok pd :
  Forall (λ cross, 4 ≤ length cross)%nat pd ↔ ∃ G, build_graph set_iter pd = Ok G.
Proof using Type.
  unfold build_graph. split.
  - apply add_edges_loop_Ok.
  - intros [G HG]. by eapply add_edges_loop_Ok_inv.
Qed.

Lemma build_graph_Err pd e :
  build_graph set_iter pd = Err e →
  e = IndexError ∧ Exists (λ cross, length cross < 4)%nat pd.
Proof using Type.
  intros He.
  assert (Exists (λ cross, length cross < 4)%nat pd) as Hex.
  { destruct (decide (Forall (λ cross, 4 ≤ length cross)%nat pd)) as [Hall|Hnot].
    - apply build_graph_Ok in Hall as [G HG]. congruence.
    - apply not_Forall_Exists in Hnot; [|apply _].
      eapply Exists_impl; [done|]. simpl. lia. }
  split; [|done].
  unfold build_graph in He. rewrite add_edges_loop_short in He by done.
  congruence.
Qed.

Lemma build_graph_spec pd G :
  build_graph set_iter pd = Ok G →
  graph_wf G ∧
  (∀ x, x ∈ _node G ↔ ∃ cross, cross ∈ pd ∧ x ∈ cross) ∧
  (∀ u v, adjacent G u v ↔ ∃ cross, cross ∈ pd ∧ crossing_joins cross u v) ∧
  (total_degree G ≤ 12 * length pd)%nat.
Proof using set_iter_elem.
  unfold build_graph. intros HG.
  pose proof (add_nodes_from_wf (set_iter (concat pd)) _ empty_graph_wf) as Hwf0.
  apply add_edges_loop_spec in HG as (Hwf & Hn & Ha & Hd); [|done].
  split_and!; [done | | |].
  - intros x. rewrite Hn, add_nodes_from_nodes, set_iter_elem, elem_of_concat.
    simpl. rewrite elem_of_nil. split; [|eauto].
    intros [[[]|?]|(cross & Hc & Hx)]; [done|].
    exists cross. split; [done|].
    apply elem_of_take in Hx as (i & Hi & _). by eapply list_elem_of_lookup_2.
  - intros u v. rewrite Ha, add_nodes_from_adjacent by apply empty_graph_wf.
    split; [|eauto]. intros [(nbrs & Hu & _)|?]; [|done].
    simpl in Hu. by rewrite lookup_empty in Hu.
  - rewrite add_nodes_from_total_degree in Hd by apply empty_graph_wf.
    unfold total_degree in Hd at 2. simpl in Hd. lia.
Qed.

(** C5 (as amended): the graph builder fails, with the [IndexError] of the
    tuple subscript, exactly when some crossing has fewer than four entries;
    when every crossing has at least four it returns a graph, so a tuple that
    is too long raises nothing.  The graph it then returns has every entry
    of every tuple as a node, each once, and its edges are exactly the six
    pairs of the first four entries of the tuples, in either orientation; the
    entries after the fourth give no edge. *)
Theorem build_graph_arity pd :
  (Exists (λ cross, length cross < 4)%nat pd ↔
     build_graph set_iter pd = Err IndexError) ∧
  (Forall (λ cross, 4 ≤ length cross)%nat pd ↔
     ∃ G, build_graph set_iter pd = Ok G) ∧
  (∀ e, build_graph set_iter pd = Err e → e = IndexError) ∧
  (∀ G, build_graph set_iter pd = Ok G →
     NoDup (_node G) ∧
     (∀ x, x ∈ _node G ↔ ∃ cross, cross ∈ pd ∧ x ∈ cross) ∧
     (∀ u v, has_edge G u v = true ↔
        ∃ a b c d rest, (a :: b :: c :: d :: rest) ∈ pd ∧
          ((u, v) ∈ [(a, b); (b, c); (c, d); (d, a); (a, c); (b, d)] ∨
           (v, u) ∈ [(a, b); (b, c); (c, d); (d, a); (a, c); (b, d)]))).
Proof using set_iter_elem.
  split_and!.
  - split.
    + intros Hex. unfold build_graph. by apply add_edges_loop_short.
    + by intros [_ ?]%build_graph_Err.
  - apply build_graph_Ok.
  - by intros e [-> _]%build_graph_Err.
  - intros G (Hwf & Hn & Ha & _)%build_graph_spec.
    split_and!; [apply Hwf | exact Hn |].
    intros u v. rewrite has_edge_adjacent, Ha. split.
    + intros (cross & Hc & Hj). unfold crossing_joins, crossing_edges in Hj.
      destruct cross as [|a [|b [|c [|d rest]]]];
        try (destruct Hj as [Hj|Hj]; by apply elem_of_nil in Hj).
      by exists a, b, c, d, rest.
    + intros (a & b & c & d & rest & Hc & Hj).
      by exists (a :: b :: c :: d :: rest).
Qed.

(** C2: on a PD code whose crossings are four different identifiers each,
    the graph builder returns a graph whose edges are exactly the six pairs
    (a,b), (b,c), (c,d), (d,a), (a,c), (b,d) of the crossings (a,b,c,d), in
    either orientation; no node is its own neighbour, no neighbour is listed
    twice, and [number_of_edges] is at most six times the number of
    crossings. *)
Theorem build_graph_six_edges pd :
  Forall valid_crossing pd →
  ∃ G, build_graph set_iter pd = Ok G ∧
    (∀ u v, has_edge G u v = true ↔
       ∃ a b c d, [a; b; c; d] ∈ pd ∧
         ((u, v) ∈ [(a, b); (b, c); (c, d); (d, a); (a, c); (b, d)] ∨
          (v, u) ∈ [(a, b); (b, c); (c, d); (d, a); (a, c); (b, d)])) ∧
    (∀ u, has_edge G u u = false) ∧
    (∀ u nbrs, _adj G !! u = Some nbrs → NoDup nbrs) ∧
    (number_of_edges G ≤ 6 * length pd)%nat.
Proof using set_iter_elem.
  intros Hvalid.
  destruct (proj1 (build_graph_Ok pd)) as [G HG].
  { eapply Forall_impl; [done|]. intros cross [-> _]. done. }
  exists G. split; [done|].
  apply build_graph_spec in HG as (Hwf & _ & Hadj & Hdeg).
  assert (∀ u v, has_edge G u v = true ↔
       ∃ a b c d, [a; b; c; d] ∈ pd ∧
         ((u, v) ∈ [(a, b); (b, c); (c, d); (d, a); (a, c); (b, d)] ∨
          (v, u) ∈ [(a, b); (b, c); (c, d); (d, a); (a, c); (b, d)])) as Hedge.
  { intros u v. rewrite has_edge_adjacent, Hadj. split.
    - intros (cross & Hc & Hj).
      destruct (valid_crossing_inv cross) as (a & b & c & d & -> & _).
      { by eapply Forall_forall. }
      by exists a, b, c, d.
    - intros (a & b & c & d & Hc & Hj). by exists [a; b; c; d]. }
  split_and!; [done | | apply Hwf |].
  - intros u. apply not_true_is_false. rewrite Hedge.
    intros (a & b & c & d & Hc & Hj).
    destruct (valid_crossing_inv [a; b; c; d]) as (a' & b' & c' & d' & Heq & Hne).
    { by eapply Forall_forall. }
    simplify_eq.
    rewrite !elem_of_cons, !elem_of_nil, !pair_equal_spec in Hj. naive_solver.
  - unfold number_of_edges. fold (total_degree G).
    apply Nat.Div0.div_le_upper_bound. lia.
Qed.

(** C3: for a PD code that is a non-empty sequence of 4-tuples the graph
    builder returns a graph whose nodes are, without repeats, exactly the
    identifiers occurring in the PD code; for [(1,2,3,4)] the nodes are 1, 2,
    3, 4 and the edges are exactly (1,2), (2,3), (3,4), (4,1), (1,3), (2,4). *)
Theorem build_graph_node_set :
  (∀ pd, pd ≠ [] → Forall (λ cross, length cross = 4%nat) pd →
     ∃ G, build_graph set_iter pd = Ok G ∧ NoDup (_node G) ∧
       ∀ x, x ∈ _node G ↔ ∃ cross, cross ∈ pd ∧ x ∈ cross) ∧
  (∃ G, build_graph set_iter [[1; 2; 3; 4]] = Ok G ∧
     _node G ≡ₚ [1; 2; 3; 4] ∧
     ∀ u v, has_edge G u v = true ↔
       (u, v) ∈ [(1, 2); (2, 3); (3, 4); (4, 1); (1, 3); (2, 4)] ∨
       (v, u) ∈ [(1, 2); (2, 3); (3, 4); (4, 1); (1, 3); (2, 4)]).
Proof using set_iter_elem.
  assert (∀ pd, Forall (λ cross, length cross = 4%nat) pd →
     ∃ G, build_graph set_iter pd = Ok G ∧ graph_wf G ∧
       (∀ x, x ∈ _node G ↔ ∃ cross, cross ∈ pd ∧ x ∈ cross) ∧
       (∀ u v, has_edge G u v = true ↔
               ∃ cross, cross ∈ pd ∧ crossing_joins cross u v)) as Hgen.
  { intros pd Hpd.
    destruct (proj1 (build_graph_Ok pd)) as [G HG].
    { eapply Forall_impl; [done|]. by intros cross ->. }
    exists G. split; [done|].
    apply build_graph_spec in HG as (Hwf & Hn & Hadj & _).
    split_and!; [done..|]. intros u v. by rewrite has_edge_adjacent. }
  split.
  - intros pd _ Hpd. destruct (Hgen pd Hpd) as (G & HG & Hwf & Hn & _).
    exists G. split_and!; [done | apply Hwf | done].
  - destruct (Hgen [[1; 2; 3; 4]]) as (G & HG & Hwf & Hn & He).
    { by repeat constructor. }
    exists G. split_and!; [done | |].
    + apply NoDup_Permutation; [apply Hwf | |].
      * rewrite !NoDup_cons, !elem_of_cons, !elem_of_nil.
        split_and!; try constructor; lia.
      * intros x. rewrite Hn. setoid_rewrite list_elem_of_singleton.
        naive_solver.
    + intros u v. rewrite He. setoid_rewrite list_elem_of_singleton.
      unfold crossing_joins. split; [by intros (? & -> & ?)|eauto].
Qed.

Lemma trace_path_Done_inv G fuel p :
  graph_wf G → trace_path fuel G = Done p →
  ∃ s w z, head (_node G) = Some s ∧
    p = w ++ (if has_edge G z s then [s] else []) ∧
    head w = Some s ∧ loop_inv G w (list_to_set w) z ∧
    (∀ v, adjacent G z v → v ∈ w).
Proof using Type.
  intros Hwf Hp.
  destruct (head (_node G)) as [s|] eqn:Hs.
  - destruct (trace_path_spec G (fuel `max` length (_node G)) s)
      as (w & z & Hrun & Hw); [done.. | lia |].
    rewrite (trace_path_fuel_mono fuel), Hp in Hrun; [|lia|by rewrite Hp].
    injection Hrun as ->. by exists s, w, z.
  - apply head_None in Hs. by rewrite trace_path_empty in Hp.
Qed.

Lemma build_graph_head pd G :
  build_graph set_iter pd = Ok G → pd ≠ [] → is_Some (head (_node G)).
Proof using set_iter_elem.
  intros HG Hpd.
  pose proof (proj2 (build_graph_Ok pd) ltac:(eauto)) as Hlong.
  apply build_graph_spec in HG as (Hwf & Hn & _ & _).
  destruct (head (_node G)) as [s|] eqn:Hs; [done|].
  exfalso. apply head_None in Hs.
  destruct pd as [|cross pd]; [done|].
  apply Forall_cons in Hlong as [Hc _].
  destruct (crossing_long_inv cross Hc) as (a & b & c & d & rest & ->).
  assert (a ∈ _node G) as Ha.
  { apply Hn. eexists. split; [by left|by left]. }
  rewrite Hs in Ha. by apply elem_of_nil in Ha.
Qed.

Lemma trace_path_returns pd G fuel :
  build_graph set_iter pd = Ok G → pd ≠ [] → (length (_node G) ≤ fuel)%nat →
  ∃ p, trace_path fuel G = Done p.
Proof using set_iter_elem.
  intros HG Hpd Hfuel.
  destruct (build_graph_head pd G HG Hpd) as [s Hs].
  apply build_graph_spec in HG as (Hwf & _).
  destruct (trace_path_spec G fuel s) as (w & z & Hrun & _); eauto.
Qed.

(** C1: on the graph built from a non-empty PD code the traversal returns a
    path; every path it returns is a duplicate-free walk [w] (neighbouring
    entries are edges of the graph, all entries are nodes) starting at the
    first node, followed by one more copy of its first entry exactly when
    that entry is a neighbour of the last entry of [w]. *)
Theorem trace_path_walk pd G :
  build_graph set_iter pd = Ok G →
  (pd ≠ [] → ∀ fuel, (length (_node G) ≤ fuel)%nat →
     ∃ p, trace_path fuel G = Done p) ∧
  (∀ fuel p, trace_path fuel G = Done p →
     ∃ w first_arc last_arc,
       head w = Some first_arc ∧ last w = Some last_arc ∧
       head (_node G) = Some first_arc ∧
       NoDup w ∧ (∀ x, x ∈ w → x ∈ _node G) ∧ consecutive_edges G w ∧
       p = w ++ (if has_edge G last_arc first_arc then [first_arc] else [])).
Proof using set_iter_elem.
  intros HG. split.
  - intros Hpd fuel Hfuel. by eapply trace_path_returns.
  - apply build_graph_spec in HG as (Hwf & Hn & _ & _).
    intros fuel p Hp.
    apply trace_path_Done_inv in Hp as (s & w & z & Hs & -> & Hw & Hinv & _);
      [|done].
    exists w, s, z. destruct Hinv. by split_and!.
Qed.

(** C8: on a built graph the loop of the traversal never needs more
    iterations than the graph has nodes, and a returned path has at most one
    entry more than there are nodes; for a PD code of one 4-tuple four
    iterations are enough and the path has at most five entries. *)
Theorem trace_path_terminates :
  (∀ pd G, build_graph set_iter pd = Ok G →
     (∀ fuel, (length (_node G) ≤ fuel)%nat → trace_path fuel G ≠ OutOfFuel) ∧
     (∀ fuel p, trace_path fuel G = Done p →
        (length p ≤ length (_node G) + 1)%nat)) ∧
  (∀ cross G, length cross = 4%nat → build_graph set_iter [cross] = Ok G →
     ∃ p, trace_path 4 G = Done p ∧ (length p ≤ 5)%nat).
Proof using set_iter_elem.
  assert (∀ pd G, build_graph set_iter pd = Ok G →
     (∀ fuel, (length (_node G) ≤ fuel)%nat → trace_path fuel G ≠ OutOfFuel) ∧
     (∀ fuel p, trace_path fuel G = Done p →
        (length p ≤ length (_node G) + 1)%nat)) as Hgen.
  { intros pd G HG. apply build_graph_spec in HG as (Hwf & _).
    split.
    - intros fuel Hfuel. destruct (head (_node G)) as [s|] eqn:Hs.
      + destruct (trace_path_spec G fuel s) as (w & z & -> & _); done.
      + apply head_None in Hs. by rewrite trace_path_empty.
    - intros fuel p Hp.
      apply trace_path_Done_inv in Hp as (s & w & z & _ & -> & _ & Hinv & _);
        [|done].
      pose proof (NoDup_nodes_length G w (inv_NoDup _ _ _ _ Hinv)
                    (inv_nodes _ _ _ _ Hinv)).
      rewrite length_app. destruct (has_edge G z s); simpl; lia. }
  split; [done|].
  intros cross G Hlen HG.
  destruct (Hgen _ _ HG) as [Hrun Hbound].
  pose proof HG as (Hwf & Hn & _ & _)%build_graph_spec.
  assert (length (_node G) ≤ 4)%nat as Hnodes.
  { rewrite <- Hlen. apply submseteq_length, NoDup_submseteq; [apply Hwf|].
    intros x (c & ->%list_elem_of_singleton & Hx)%Hn. done. }
  destruct (trace_path 4 G) as [p|e|] eqn:Hp.
  - exists p. split; [done|]. apply Hbound in Hp. lia.
  - exfalso.
    destruct (trace_path_returns [cross] G 4 HG) as [p' Hp']; [done..|].
    congruence.
  - by destruct (Hrun 4%nat Hnodes).
Qed.

(** *** Positions and the point sequence *)

Lemma linspace_length start stop num : length (linspace start stop num) = num.
Proof using Type. unfold linspace. by rewrite length_map, length_seq. Qed.

Lemma calculate_positions_length n : length (calculate_positions' n) = n.
Proof using Type.
  unfold calculate_positions. by rewrite length_map, linspace_length.
Qed.




Lemma Knot_init_inv fuel nm pd k :
  Knot_init' fuel nm pd = Done k →
  ∃ G p, build_graph set_iter pd = Ok G ∧ trace_path fuel G = Done p ∧
    k = mkKnot nm pd (length pd) G (calculate_positions' (length pd)) p.
Proof using Type.
  unfold Knot_init.
  destruct (build_graph set_iter pd) as [G|e]; simpl; [|done].
  destruct (trace_path fuel G) as [p|e|] eqn:Hp; simpl; [|done..].
  intros [= <-]. eauto.
Qed.

Lemma get_arc_position_loop_find (positions : list Point) i0 pd arc :
  get_arc_position_loop positions i0 pd arc =
    match list_find (λ cross, arc ∈ cross) pd with
    | Some (i, _) => p ← getitem positions (i0 + i) ; Ok (Some p)
    | None => Ok None
    end.
Proof using Type.
  revert i0. induction pd as [|cross pd IH]; intros i0; csimpl; [done|].
  case_bool_decide as Hc.
  - rewrite decide_True by done. by rewrite Nat.add_0_r.
  - rewrite decide_False by done. rewrite IH.
    destruct (list_find _ pd) as [[i c]|]; simpl; [|done].
    by rewrite Nat.add_succ_r.
Qed.

Lemma get_arc_position_first k arc :
  length (positions k) = length (pd_code k) →
  get_arc_position k arc =
    Ok (first_crossing_position (pd_code k) (positions k) arc).
Proof using Type.
  intros Hlen. unfold get_arc_position, first_crossing_position.
  rewrite get_arc_position_loop_find.
  destruct (list_find _ (pd_code k)) as [[i c]|] eqn:Hfind; simpl; [|done].
  apply list_find_Some in Hfind as (Hi%lookup_lt_Some & _).
  unfold getitem.
  destruct (lookup_lt_is_Some_2 (positions k) i) as [pos Hpos]; [lia|].
  by rewrite Hpos.
Qed.

Lemma draw_points_loop_omap k (f : Z → option Point) arcs points :
  (∀ arc, get_arc_position k arc = Ok (f arc)) →
  draw_points_loop k arcs points = Ok (points ++ omap f arcs).
Proof using Type.
  intros Hf. revert points.
  induction arcs as [|arc arcs IH]; intros points; simpl.
  - by rewrite app_nil_r.
  - rewrite Hf. simpl. destruct (f arc) as [pos|]; rewrite IH; [|done].
    by rewrite <- app_assoc.
Qed.

(** C6: in a constructed knot the position of an arc is the position of the
    first crossing, in PD-code order, whose tuple contains it; an arc that is
    in no crossing gets [None]; and the point sequence of [draw] is the
    sequence of these positions along the path, the arcs without a position
    left out. *)
Theorem get_arc_position_first_crossing fuel nm pd k :
  Knot_init' fuel nm pd = Done k →
  (∀ arc i cross,
     pd !! i = Some cross → arc ∈ cross →
     (∀ j cross', (j < i)%nat → pd !! j = Some cross' → arc ∉ cross') →
     ∃ pos, positions k !! i = Some pos ∧
            get_arc_position k arc = Ok (Some pos)) ∧
  (∀ arc, (∀ cross, cross ∈ pd → arc ∉ cross) →
     get_arc_position k arc = Ok None) ∧
  (∀ arc, get_arc_position k arc = Ok (first_crossing_position pd (positions k) arc)) ∧
  draw_points k = Ok (omap (first_crossing_position pd (positions k)) (path k)).
Proof using Type.
  intros (G & p & _ & _ & ->)%Knot_init_inv.
  set (k := mkKnot _ _ _ _ _ _).
  assert (∀ arc, get_arc_position k arc =
                 Ok (first_crossing_position pd (positions k) arc)) as Hget.
  { intros arc. apply (get_arc_position_first k).
    simpl. apply calculate_positions_length. }
  split_and!; [| |done|].
  - intros arc i cross Hi Harc Hfirst.
    assert (list_find (λ cross, arc ∈ cross) pd = Some (i, cross)) as Hfind.
    { apply list_find_Some. split_and!; [done..|]. intros j y Hj Hlt. eauto. }
    destruct (lookup_lt_is_Some_2 (positions k) i) as [pos Hpos].
    { simpl. rewrite calculate_positions_length. by eapply lookup_lt_Some. }
    exists pos. split; [done|].
    rewrite Hget. unfold first_crossing_position. rewrite Hfind. simpl.
    simpl in Hpos. by rewrite Hpos.
  - intros arc Hnone. rewrite Hget. unfold first_crossing_position.
    assert (list_find (λ cross, arc ∈ cross) pd = None) as ->; [|done].
    apply list_find_None, Forall_forall. done.
  - unfold draw_points. by rewrite (draw_points_loop_omap k _ _ _ Hget).
Qed.

(** *** generate_knot_pair *)

Lemma build_graph_node_count pd G :
  build_graph set_iter pd = Ok G → (length (_node G) ≤ length (concat pd))%nat.
Proof using set_iter_elem.
  intros (Hwf & Hn & _)%build_graph_spec.
  apply submseteq_length, NoDup_submseteq; [apply Hwf|].
  intros x. by rewrite Hn, elem_of_concat.
Qed.

(** Construction succeeds on a non-empty PD code of tuples with at least four
    entries, within as many loop iterations as the PD code has entries. *)
Lemma Knot_init_Done fuel nm pd :
  Forall (λ cross, 4 ≤ length cross)%nat pd → pd ≠ [] →
  (length (concat pd) ≤ fuel)%nat →
  ∃ k, Knot_init' fuel nm pd = Done k ∧ name k = nm ∧ pd_code k = pd.
Proof using set_iter_elem.
  intros Hlong Hpd Hfuel.
  apply build_graph_Ok in Hlong as [G HG].
  destruct (trace_path_returns pd G fuel HG Hpd) as [p Hp].
  { pose proof (build_graph_node_count pd G HG). lia. }
  unfold Knot_init. rewrite HG. simpl. rewrite Hp. simpl. eauto.
Qed.

Lemma knot_types_Knot_init fuel i :
  (40 ≤ fuel)%nat → (i < length knot_types)%nat →
  ∃ nm pd k, knot_types !! i = Some nm ∧ nm ≠ "Unknot" ∧
    dict_getitem KNOT_DEFINITIONS nm = Ok pd ∧ (nm, pd) ∈ KNOT_DEFINITIONS ∧
    Knot_init' fuel nm pd = Done k ∧ name k = nm ∧ pd_code k = pd.
Proof using set_iter_elem.
  intros Hfuel Hi.
  destruct (lookup_lt_is_Some_2 knot_types i Hi) as [nm Hnm].
  pose proof (proj1 (Forall_forall _ _) knot_types_lookup nm
                (list_elem_of_lookup_2 _ _ _ Hnm)) as (Hne & pd & Hget & Hin).
  pose proof (proj1 (Forall_forall _ _) KNOT_DEFINITIONS_shape _ Hin)
    as (Hlong & Hpd & Hsize).
  simpl in *.
  destruct (Knot_init_Done fuel nm pd) as (k & Hk & Hname & Hcode);
    [done.. | lia |].
  by exists nm, pd, k.
Qed.

Lemma bind_lift_Ok {A B : Type} (a : A) (f : A → comp B) :
  lift (Ok a) ≫= f = f a.
Proof using Type. reflexivity. Qed.

Lemma bind_Done {A B : Type} (a : A) (f : A → comp B) : Done a ≫= f = f a.
Proof using Type. reflexivity. Qed.

Lemma getitem_lookup {A : Type} (l : list A) i x :
  l !! i = Some x → getitem l i = Ok x.
Proof using Type. unfold getitem. by intros ->. Qed.

(** C9: whatever is drawn, a pair is returned and its flag is the branch
    drawn.  In the equivalent branch both knots are constructed from the PD
    code of one name of the dataset other than Unknot; in the other branch
    they are constructed from the PD codes of the names at the two sampled
    positions of the list without Unknot, and these names differ. *)
Theorem generate_knot_pair_branches fuel d :
  (40 ≤ fuel)%nat → valid_draws (length KNOT_DEFINITIONS - 1) d →
  ∃ knot1 knot2 equivalent,
    generate_knot_pair set_iter np_cos np_sin fuel d
      = Done (knot1, knot2, equivalent) ∧
    list_remove "Unknot" (map fst KNOT_DEFINITIONS) = Ok knot_types ∧
    [true; false] !! draw_equivalent d = Some equivalent ∧
    if equivalent then
      ∃ nm pd,
        knot_types !! draw_knot_type d = Some nm ∧ nm ≠ "Unknot" ∧
        (nm, pd) ∈ KNOT_DEFINITIONS ∧
        Knot_init' fuel nm pd = Done knot1 ∧
        Knot_init' fuel nm pd = Done knot2 ∧
        name knot1 = name knot2 ∧ pd_code knot1 = pd_code knot2
    else
      ∃ nm1 pd1 nm2 pd2,
        knot_types !! fst (draw_sample d) = Some nm1 ∧
        knot_types !! snd (draw_sample d) = Some nm2 ∧
        nm1 ≠ "Unknot" ∧ nm2 ≠ "Unknot" ∧
        (nm1, pd1) ∈ KNOT_DEFINITIONS ∧ (nm2, pd2) ∈ KNOT_DEFINITIONS ∧
        Knot_init' fuel nm1 pd1 = Done knot1 ∧
        Knot_init' fuel nm2 pd2 = Done knot2 ∧
        name knot1 ≠ name knot2.
Proof using set_iter_elem.
  intros Hfuel (He & Ht & Hi & Hj & Hij).
  unfold generate_knot_pair. rewrite knot_types_remove.
  rewrite bind_lift_Ok.
  destruct d as [e t [i j]].
  cbn [draw_equivalent draw_knot_type draw_sample fst snd] in *.
  change (length KNOT_DEFINITIONS - 1)%nat with (length knot_types) in *.
  destruct e as [|[|e]]; [| |lia].
  - destruct (knot_types_Knot_init fuel t Hfuel Ht)
      as (nm & pd & k & Hnm & Hne & Hget & Hin & Hk & Hname & Hcode).
    rewrite (getitem_lookup [true; false] 0 true eq_refl), bind_lift_Ok.
    rewrite (getitem_lookup _ _ _ Hnm), bind_lift_Ok.
    rewrite Hget, bind_lift_Ok, Hk, bind_Done, bind_lift_Ok, Hk, bind_Done.
    exists k, k, true. split_and!; [done..|].
    by exists nm, pd.
  - destruct (knot_types_Knot_init fuel i Hfuel Hi)
      as (nm1 & pd1 & k1 & Hnm1 & Hne1 & Hget1 & Hin1 & Hk1 & Hname1 & Hcode1).
    destruct (knot_types_Knot_init fuel j Hfuel Hj)
      as (nm2 & pd2 & k2 & Hnm2 & Hne2 & Hget2 & Hin2 & Hk2 & Hname2 & Hcode2).
    rewrite (getitem_lookup [true; false] 1 false eq_refl), bind_lift_Ok.
    rewrite (getitem_lookup _ _ _ Hnm1), bind_lift_Ok.
    rewrite (getitem_lookup _ _ _ Hnm2), bind_lift_Ok.
    rewrite Hget1, bind_lift_Ok, Hk1, bind_Done.
    rewrite Hget2, bind_lift_Ok, Hk2, bind_Done.
    exists k1, k2, false. split_and!; [done..|].
    exists nm1, pd1, nm2, pd2. split_and!; try done.
    rewrite Hname1, Hname2. intros ->.
    apply Hij. by eapply NoDup_lookup; [apply knot_types_NoDup|..].
Qed.

(** *** Graphs of PD codes whose crossings share no identifier *)

Section disjoint.
Context (pd : PDCode) (G : Graph).
Hypothesis Hdisj : disjoint_crossings pd.
Hypothesis HG : build_graph set_iter pd = Ok G.

Lemma disjoint_adjacent u v :
  adjacent G u v ↔ u ≠ v ∧ ∃ cross, cross ∈ pd ∧ u ∈ cross ∧ v ∈ cross.
Proof using set_iter_elem Hdisj HG.
  destruct Hdisj as [Hvalid _].
  apply build_graph_spec in HG as (_ & _ & -> & _).
  split.
  - intros (cross & Hc & Hj). apply crossing_joins_valid in Hj as (? & ? & ?).
    + eauto.
    + by apply (proj1 (Forall_forall _ _) Hvalid).
  - intros (Hne & cross & Hc & Hu & Hv). exists cross. split; [done|].
    apply crossing_joins_valid; [|done].
    by apply (proj1 (Forall_forall _ _) Hvalid).
Qed.

Lemma disjoint_adjacent_stays cross u v :
  cross ∈ pd → u ∈ cross → adjacent G u v → v ∈ cross.
Proof using set_iter_elem Hdisj HG.
  intros Hc Hu (_ & cross' & Hc' & Hu' & Hv)%disjoint_adjacent.
  destruct Hdisj as [_ Hd]. by rewrite (Hd cross cross' u).
Qed.

Lemma disjoint_walk_stays cross w s :
  cross ∈ pd → s ∈ cross → head w = Some s → consecutive_edges G w →
  ∀ x, x ∈ w → x ∈ cross.
Proof using set_iter_elem Hdisj HG.
  intros Hc Hs Hhead Hwalk x (j & Hj)%list_elem_of_lookup.
  revert x Hj. induction j as [|j IH]; intros x Hj.
  - rewrite head_lookup in Hhead. congruence.
  - destruct (lookup_lt_is_Some_2 w j) as [y Hy].
    { apply lookup_lt_Some in Hj. lia. }
    eapply disjoint_adjacent_stays; [done | by apply IH |].
    apply has_edge_adjacent. by eapply Hwalk.
Qed.

Lemma disjoint_component cross u v :
  cross ∈ pd → u ∈ cross → rtc (adjacent G) u v ↔ v ∈ cross.
Proof using set_iter_elem Hdisj HG.
  intros Hc Hu. split.
  - intros Hrtc. induction Hrtc as [|u y v Huy _ IH]; [done|].
    apply IH. by eapply disjoint_adjacent_stays.
  - intros Hv. destruct (decide (u = v)) as [->|Hne]; [done|].
    apply rtc_once, disjoint_adjacent. eauto.
Qed.

Lemma disjoint_trace_path fuel :
  pd ≠ [] → (length (_node G) ≤ fuel)%nat →
  ∃ w s cross,
    trace_path fuel G = Done (w ++ [s]) ∧ head w = Some s ∧
    cross ∈ pd ∧ w ≡ₚ cross.
Proof using set_iter_elem Hdisj HG.
  intros Hpd Hfuel.
  destruct (build_graph_head pd G HG Hpd) as [s Hs].
  pose proof HG as (Hwf & Hn & _)%build_graph_spec.
  destruct (trace_path_spec G fuel s Hwf Hs Hfuel)
    as (w & z & Hrun & Hhead & [Hlast Hnd _ _ Hwalk] & Hmax).
  destruct (proj1 (Hn s)) as (cross & Hc & Hsc).
  { by apply head_Some_elem_of. }
  pose proof (disjoint_walk_stays cross w s Hc Hsc Hhead Hwalk) as Hsub.
  assert (z ∈ w) as Hzw by by eapply last_Some_elem_of.
  assert (valid_crossing cross) as [Hlen Hcnd].
  { destruct Hdisj as [Hvalid _]. by apply (proj1 (Forall_forall _ _) Hvalid). }
  assert (w ≡ₚ cross) as Hperm.
  { apply NoDup_Permutation; [done..|]. intros x. split; [apply Hsub|].
    intros Hx. destruct (decide (x = z)) as [->|Hne]; [done|].
    apply Hmax, disjoint_adjacent. split; [done|]. exists cross. auto. }
  assert (z ≠ s) as Hzs.
  { intros ->. rewrite head_lookup in Hhead. rewrite last_lookup in Hlast.
    pose proof (NoDup_lookup w _ _ s Hnd Hhead Hlast) as Heq.
    apply Permutation_length in Hperm. rewrite Hlen in Hperm.
    rewrite Hperm in Heq. done. }
  assert (has_edge G z s = true) as Hedge.
  { apply has_edge_adjacent, disjoint_adjacent. split; [done|].
    exists cross. auto. }
  rewrite Hedge in Hrun. by exists w, s, cross.
Qed.

End disjoint.

Lemma path_arcs_are_nodes G fuel p arc :
  graph_wf G → trace_path fuel G = Done p → arc ∈ p → arc ∈ _node G.
Proof using Type.
  intros Hwf (s & w & z & Hs & -> & _ & Hinv & _)%trace_path_Done_inv Harc;
    [|done].
  apply elem_of_app in Harc as [Harc|Harc].
  - by apply (inv_nodes _ _ _ _ Hinv).
  - destruct (has_edge G z s); [|by apply elem_of_nil in Harc].
    apply list_elem_of_singleton in Harc as ->. by apply head_Some_elem_of.
Qed.

(** C10: every PD code of the dataset consists of the crossings
    (4i+1, 4i+2, 4i+3, 4i+4), which share no identifier; its graph has the
    nodes 1..4n, two nodes are joined exactly when they are different
    identifiers of one crossing, the nodes reachable from a node are exactly
    those of its crossing, and so the graph is not connected when n ≥ 2; the
    traced path is the four arcs of the first node's crossing followed by the
    first node again, five entries.  For every PD code, each node of the
    built graph lies in some crossing, and each arc on the path of a
    constructed knot lies in some crossing and has a position. *)
Theorem dataset_components :
  (∀ nm pd, (nm, pd) ∈ KNOT_DEFINITIONS →
     (∀ (i : nat) cross, pd !! i = Some cross →
        cross = [4 * Z.of_nat i + 1; 4 * Z.of_nat i + 2;
                 4 * Z.of_nat i + 3; 4 * Z.of_nat i + 4]) ∧
     (∀ cross cross' x,
        cross ∈ pd → cross' ∈ pd → x ∈ cross → x ∈ cross' → cross = cross') ∧
     ∃ G, build_graph set_iter pd = Ok G ∧
       (∀ x, x ∈ _node G ↔ 1 ≤ x ≤ 4 * Z.of_nat (length pd)) ∧
       (∀ u v, has_edge G u v = true ↔
               u ≠ v ∧ ∃ cross, cross ∈ pd ∧ u ∈ cross ∧ v ∈ cross) ∧
       (∀ cross u v, cross ∈ pd → u ∈ cross →
                     rtc (adjacent G) u v ↔ v ∈ cross) ∧
       ((2 ≤ length pd)%nat → ¬ connected G) ∧
       (∀ fuel, (length (_node G) ≤ fuel)%nat →
          ∃ w s cross,
            trace_path fuel G = Done (w ++ [s]) ∧ head w = Some s ∧
            cross ∈ pd ∧ w ≡ₚ cross ∧ length (w ++ [s]) = 5%nat)) ∧
  (∀ pd G, build_graph set_iter pd = Ok G →
     ∀ x, x ∈ _node G → ∃ cross, cross ∈ pd ∧ x ∈ cross) ∧
  (∀ pd fuel nm k, Knot_init' fuel nm pd = Done k →
     ∀ arc, arc ∈ path k →
       (∃ cross, cross ∈ pd ∧ arc ∈ cross) ∧
       ∃ pos, get_arc_position k arc = Ok (Some pos)).
Proof using set_iter_elem.
  split.
  - intros nm pd Hin.
    pose proof (proj1 (Forall_forall _ _) KNOT_DEFINITIONS_blocks _ Hin) as Hpd.
    pose proof (proj1 (Forall_forall _ _) KNOT_DEFINITIONS_shape _ Hin)
      as (Hlong & Hne & _).
    simpl in Hpd, Hlong, Hne.
    set (n := length pd) in *.
    pose proof (dataset_pd_disjoint n) as Hdisj. rewrite <- Hpd in Hdisj.
    assert (∀ cross, cross ∈ pd ↔
              ∃ i : nat, (i < n)%nat ∧ cross = dataset_crossing i) as Hcross.
    { intros cross. rewrite Hpd at 1. apply dataset_pd_elem. }
    split_and!.
    { intros i cross Hi. rewrite Hpd in Hi.
      apply list_lookup_fmap_Some in Hi as (j & -> & Hj).
      by apply lookup_seq in Hj as [-> _]. }
    { apply Hdisj. }
    apply build_graph_Ok in Hlong as [G HG]. exists G.
    pose proof HG as (Hwf & Hn & _)%build_graph_spec.
    split_and!; [done| | | | |].
    + intros x. rewrite Hn. split.
      * intros (cross & (i & Hi & ->)%Hcross & Hx%dataset_crossing_elem). lia.
      * intros Hx. exists (dataset_crossing (Z.to_nat ((x - 1) / 4))). split.
        -- apply Hcross. eexists. split; [|done].
           apply Nat2Z.inj_lt. rewrite Z2Nat.id by (apply Z.div_pos; lia).
           apply Z.div_lt_upper_bound; lia.
        -- apply dataset_crossing_elem.
           rewrite Z2Nat.id by (apply Z.div_pos; lia).
           pose proof (Z.mul_div_le (x - 1) 4 ltac:(lia)).
           pose proof (Z.mul_succ_div_gt (x - 1) 4 ltac:(lia)). lia.
    + intros u v. rewrite has_edge_adjacent. by apply disjoint_adjacent.
    + intros cross u v. by apply disjoint_component.
    + intros Hn2 Hconn.
      assert (rtc (adjacent G) 1 5) as Hrtc.
      { apply Hconn; apply Hn; [exists (dataset_crossing 0)|exists (dataset_crossing 1)];
          (split; [apply Hcross; eexists; split; [|done]; lia |]);
          apply dataset_crossing_elem; lia. }
      apply (disjoint_component pd G Hdisj HG (dataset_crossing 0)) in Hrtc.
      * apply dataset_crossing_elem in Hrtc. lia.
      * apply Hcross. exists 0%nat. split; [lia|done].
      * apply dataset_crossing_elem. lia.
    + intros fuel Hfuel.
      destruct (disjoint_trace_path pd G Hdisj HG fuel Hne Hfuel)
        as (w & s & cross & Hrun & Hhead & Hc & Hperm).
      exists w, s, cross. split_and!; [done..|].
      rewrite length_app, (Permutation_length Hperm). simpl.
      apply Hcross in Hc as (i & _ & ->). done.
  - split; [by intros pd G (_ & Hn & _)%build_graph_spec x ?%Hn|].
    intros pd fuel nm k (G & p & HG & Hp & ->)%Knot_init_inv arc Harc.
    simpl in Harc.
    pose proof HG as (Hwf & Hn & _)%build_graph_spec.
    apply (path_arcs_are_nodes G fuel p arc Hwf Hp), Hn in Harc
      as (cross & Hc & Harc).
    split; [eauto|].
    rewrite get_arc_position_first
      by (simpl; apply calculate_positions_length).
    unfold first_crossing_position. simpl.
    destruct (list_find_elem_of (λ cross, arc ∈ cross) pd cross Hc Harc)
      as [[i c] Hfind].
    rewrite Hfind. simpl.
    apply list_find_Some in Hfind as (Hi%lookup_lt_Some & _).
    destruct (lookup_lt_is_Some_2 (calculate_positions' (length pd)) i)
      as [pos Hpos].
    { by rewrite calculate_positions_length. }
    exists pos. by rewrite Hpos.
Qed.

End knot_claims.

(** * Two constructions from one PD code *)

Section same_pd_code.
Implicit Types (G : Graph) (pd : PDCode) (cross : Crossing) (k : Knot).

Lemma add_node_same n G1 G2 :
  same_up_to_node_order G1 G2 →
  same_up_to_node_order (add_node n G1) (add_node n G2).
Proof.
  intros [Hadj Hn]. unfold add_node.
  destruct (decide (n ∈ _node G1)) as [H1|H1].
  - rewrite (bool_decide_eq_true_2 (n ∈ _node G1)) by done.
    rewrite (bool_decide_eq_true_2 (n ∈ _node G2)) by by apply Hn.
    done.
  - rewrite (bool_decide_eq_false_2 (n ∈ _node G1)) by done.
    rewrite (bool_decide_eq_false_2 (n ∈ _node G2)) by by rewrite <- Hn.
    split; simpl; [by rewrite Hadj|].
    intros x. by rewrite !elem_of_app, Hn.
Qed.

Lemma add_edge_same u v G1 G2 :
  same_up_to_node_order G1 G2 →
  same_up_to_node_order (add_edge u v G1) (add_edge u v G2).
Proof.
  intros H. apply (add_node_same u), (add_node_same v) in H.
  destruct H as [Hadj Hn]. unfold add_edge. split; simpl; [by rewrite Hadj|done].
Qed.

Lemma add_edges_loop_same pd G1 G2 G1' G2' :
  same_up_to_node_order G1 G2 →
  add_edges_loop pd G1 = Ok G1' → add_edges_loop pd G2 = Ok G2' →
  same_up_to_node_order G1' G2'.
Proof.
  revert G1 G2. induction pd as [|cross pd IH]; intros G1 G2 H; simpl.
  - by intros [= <-] [= <-].
  - destruct (decide (length cross < 4)%nat) as [Hlt|Hge].
    + by rewrite add_crossing_edges_short.
    + destruct (crossing_long_inv cross) as (a & b & c & d & rest & ->); [lia|].
      rewrite !add_crossing_edges_Ok. simpl. apply IH.
      by do 6 apply add_edge_same.
Qed.

(** [add_nodes_from] gives every new node an empty neighbour dictionary. *)
Lemma add_nodes_from_lookup ns G x :
  graph_wf G →
  _adj (add_nodes_from ns G) !! x =
    if decide (x ∈ ns ∧ x ∉ _node G) then Some [] else _adj G !! x.
Proof.
  revert G. induction ns as [|n ns IH]; intros G Hwf; simpl.
  - done.
  - rewrite IH by by apply add_node_wf. rewrite add_node_lookup by done.
    repeat case_decide; try done; exfalso;
      rewrite ?add_node_nodes, ?elem_of_cons in *; naive_solver.
Qed.

Lemma add_nodes_from_same ns1 ns2 :
  (∀ x, x ∈ ns1 ↔ x ∈ ns2) →
  same_up_to_node_order (add_nodes_from ns1 empty_graph)
                        (add_nodes_from ns2 empty_graph).
Proof.
  intros H. split.
  - apply map_eq. intros x.
    rewrite !add_nodes_from_lookup by apply empty_graph_wf. simpl.
    repeat case_decide; try done; exfalso; naive_solver.
  - intros x. rewrite !add_nodes_from_nodes. by rewrite H.
Qed.

(** The set of arcs is iterated only to add the nodes, so its order shows
    in the order of the nodes and nowhere else: the neighbour dictionaries,
    with the order of their keys, come from the edge loop alone. *)
Lemma build_graph_same_adj set_iter1 set_iter2 pd G1 G2 :
  (∀ l x, x ∈ set_iter1 l ↔ x ∈ l) → (∀ l x, x ∈ set_iter2 l ↔ x ∈ l) →
  build_graph set_iter1 pd = Ok G1 → build_graph set_iter2 pd = Ok G2 →
  same_up_to_node_order G1 G2.
Proof.
  intros H1 H2. unfold build_graph. apply add_edges_loop_same, add_nodes_from_same.
  intros x. by rewrite H1, H2.
Qed.

(** The traversal reads the graph through the first node and through
    [neighbors]. *)
Lemma trace_loop_same_adj fuel G1 G2 path visited current :
  _adj G1 = _adj G2 →
  trace_loop fuel G1 path visited current = trace_loop fuel G2 path visited current.
Proof.
  intros H. revert path visited current.
  induction fuel as [|fuel IH]; intros path visited current; simpl; [done|].
  unfold neighbors. rewrite H. destruct (_adj G2 !! current); simpl; [|done].
  destruct (filter _ _); [done|]. apply IH.
Qed.

Lemma close_path_same_adj G1 G2 path :
  _adj G1 = _adj G2 → close_path G1 path = close_path G2 path.
Proof. intros H. unfold close_path, neighbors. by rewrite H. Qed.

Lemma trace_path_same_adj fuel G1 G2 :
  _adj G1 = _adj G2 → head (_node G1) = head (_node G2) →
  trace_path fuel G1 = trace_path fuel G2.
Proof.
  intros Hadj Hhead. unfold trace_path, getitem.
  rewrite <- !head_lookup, Hhead.
  destruct (head (_node G2)) as [s|]; simpl; [|done].
  rewrite (trace_loop_same_adj _ G1 G2) by done.
  destruct (trace_loop _ _ _ _ _) as [w| |]; simpl; [|done..].
  by rewrite (close_path_same_adj G1 G2).
Qed.

(** C7: two knots constructed from the same PD code, under whatever names,
    loop budgets and iteration orders of the set of arcs.  Both graphs have
    the identifiers of the PD code as nodes and the six pairs of every
    crossing as edges; they have the same nodes and the same edges, every
    node has the same neighbours in the same order, and the two position
    sequences are the same sequence of one point for each crossing.  Each
    path starts at the first node of its graph, and the paths are the same
    when these first nodes are, as they are when the set is iterated in the
    same order both times; then the graphs are equal as well.  On a non-empty
    PD code of tuples with four entries or more both constructions return,
    within as many loop iterations as the PD code has entries. *)
Theorem Knot_init_same_pd_code set_iter1 set_iter2 np_cos np_sin
    fuel1 fuel2 nm1 nm2 pd :
  (∀ l x, x ∈ set_iter1 l ↔ x ∈ l) → (∀ l x, x ∈ set_iter2 l ↔ x ∈ l) →
  (∀ k1 k2,
     Knot_init set_iter1 np_cos np_sin fuel1 nm1 pd = Done k1 →
     Knot_init set_iter2 np_cos np_sin fuel2 nm2 pd = Done k2 →
     (∀ x, x ∈ _node (graph k1) ↔ ∃ cross, cross ∈ pd ∧ x ∈ cross) ∧
     (∀ u v, has_edge (graph k1) u v = true ↔
        ∃ cross, cross ∈ pd ∧ crossing_joins cross u v) ∧
     _node (graph k1) ≡ₚ _node (graph k2) ∧
     (∀ u v, has_edge (graph k1) u v = has_edge (graph k2) u v) ∧
     (∀ n, neighbors (graph k1) n = neighbors (graph k2) n) ∧
     length (positions k1) = length pd ∧
     positions k1 = positions k2 ∧
     head (path k1) = head (_node (graph k1)) ∧
     head (path k2) = head (_node (graph k2)) ∧
     (head (_node (graph k1)) = head (_node (graph k2)) → path k1 = path k2) ∧
     (set_iter1 (concat pd) = set_iter2 (concat pd) →
        graph k1 = graph k2 ∧ path k1 = path k2)) ∧
  (pd ≠ [] → Forall (λ cross, 4 ≤ length cross)%nat pd →
   (length (concat pd) ≤ fuel1)%nat → (length (concat pd) ≤ fuel2)%nat →
   ∃ k1 k2,
     Knot_init set_iter1 np_cos np_sin fuel1 nm1 pd = Done k1 ∧
     Knot_init set_iter2 np_cos np_sin fuel2 nm2 pd = Done k2).
Proof.
  intros He1 He2. split.
  - intros k1 k2 (G1 & p1 & HG1 & Hp1 & ->)%Knot_init_inv
                 (G2 & p2 & HG2 & Hp2 & ->)%Knot_init_inv.
    simpl.
    destruct (build_graph_same_adj _ _ _ _ _ He1 He2 HG1 HG2) as [Hadj Hn].
    pose proof (build_graph_spec set_iter1 He1 pd G1 HG1) as (Hwf1 & Hn1 & Ha1 & _).
    pose proof (build_graph_spec set_iter2 He2 pd G2 HG2) as (Hwf2 & _).
    assert (head (_node G1) = head (_node G2) → p1 = p2) as Hpath.
    { intros Hhead.
      pose proof (trace_path_same_adj (fuel1 `max` fuel2) G1 G2 Hadj Hhead) as Hrun.
      rewrite (trace_path_fuel_mono fuel1), Hp1 in Hrun; [|lia|by rewrite Hp1].
      rewrite (trace_path_fuel_mono fuel2), Hp2 in Hrun; [|lia|by rewrite Hp2].
      congruence. }
    assert (∀ G fuel p, graph_wf G → trace_path fuel G = Done p →
              head p = head (_node G)) as Hstart.
    { intros G fuel p Hwf Hp.
      apply trace_path_Done_inv in Hp as (s & w & z & -> & -> & Hw & _); [|done].
      by destruct w. }
    split_and!; [done | | | | | | done | by eapply Hstart | by eapply Hstart
                 | done |].
    + intros u v. by rewrite has_edge_adjacent.
    + apply NoDup_Permutation; [apply Hwf1|apply Hwf2|done].
    + intros u v. unfold has_edge. by rewrite Hadj.
    + intros n. unfold neighbors. by rewrite Hadj.
    + apply calculate_positions_length.
    + intros Hset. unfold build_graph in HG1, HG2. rewrite Hset in HG1.
      assert (G1 = G2) as -> by congruence. split; [done|]. by apply Hpath.
  - intros Hpd Hlong Hfuel1 Hfuel2.
    destruct (Knot_init_Done set_iter1 He1 np_cos np_sin fuel1 nm1 pd)
      as (k1 & H1 & _); [done..|].
    destruct (Knot_init_Done set_iter2 He2 np_cos np_sin fuel2 nm2 pd)
      as (k2 & H2 & _); [done..|].
    eauto.
Qed.

(** The paths do depend on where the traversal starts: iterating the set of
    arcs of [sample_pd] from the back starts it at arc 6 instead of arc 1. *)
Lemma trace_path_depends_on_start :
  ∃ k1 k2,
    Knot_init set_iter_sample cos_sample sin_sample 6 "A" sample_pd = Done k1 ∧
    Knot_init set_iter_reversed cos_sample sin_sample 6 "A" sample_pd = Done k2 ∧
    path k1 = [1; 2; 3; 4; 5; 6] ∧ path k2 = [6; 5; 4; 3; 2; 1].
Proof. eexists _, _. split_and!; vm_compute; reflexivity. Qed.

End same_pd_code.

(** C5, counterexample: a PD code whose only tuple has five entries is
    malformed, and the graph builder returns a graph for it: the five
    identifiers as nodes, the six edges of the first four.  The knot is
    constructed, with the path 1, 2, 3, 4, 1. *)
Lemma build_graph_accepts_long_tuple :
  Exists (λ cross, length cross ≠ 4%nat) [[1; 2; 3; 4; 5]] ∧
  build_graph set_iter_sample [[1; 2; 3; 4; 5]] =
    Ok (mkGraph [1; 2; 3; 4; 5]
          (list_to_map [(1, [2; 4; 3]); (2, [1; 3; 4]); (3, [2; 4; 1]);
                        (4, [3; 1; 2]); (5, [])])) ∧
  ∃ k, Knot_init set_iter_sample cos_sample sin_sample 5 "K" [[1; 2; 3; 4; 5]]
         = Done k ∧
       path k = [1; 2; 3; 4; 1].
Proof.
  split_and!.
  - apply Exists_cons_hd. simpl. lia.
  - vm_compute. reflexivity.
  - eexists. split; vm_compute; reflexivity.
Qed.


(** * The theorems at sample inputs *)

(** The graph of [sample_pd] has six nodes; six iterations are enough. *)
Lemma trace_path_walk_witness :
  build_graph set_iter_sample sample_pd = Ok sample_graph ∧ sample_pd ≠ [] ∧
  (length (_node sample_graph) ≤ 6)%nat ∧
  ∃ p, trace_path 6 sample_graph = Done p.
Proof.
  assert (build_graph set_iter_sample sample_pd = Ok sample_graph) as HG
    by (vm_compute; reflexivity).
  assert (sample_pd ≠ []) as Hpd by discriminate.
  assert (length (_node sample_graph) ≤ 6)%nat as Hfuel by (vm_compute; lia).
  split_and!; [exact HG | exact Hpd | exact Hfuel |].
  exact (proj1 (trace_path_walk set_iter_sample set_iter_sample_elem
                  sample_pd sample_graph HG) Hpd 6%nat Hfuel).
Defined.

(** [sample_pd] has two valid crossings. *)
Lemma build_graph_six_edges_witness :
  Forall valid_crossing sample_pd ∧
  ∃ G, build_graph set_iter_sample sample_pd = Ok G ∧
       (number_of_edges G ≤ 6 * length sample_pd)%nat.
Proof.
  assert (Forall valid_crossing sample_pd) as Hvalid.
  { apply (bool_decide_unpack (Forall valid_crossing sample_pd)).
    vm_compute. exact I. }
  split; [exact Hvalid|].
  destruct (build_graph_six_edges set_iter_sample set_iter_sample_elem
              sample_pd Hvalid) as (G & HG & _ & _ & _ & Hcount).
  exists G. split; [exact HG | exact Hcount].
Defined.

(** A tuple of six entries: the fifth and the sixth become nodes without
    edges. *)
Lemma build_graph_arity_witness :
  ∃ G, build_graph set_iter_sample [[1; 2; 3; 4; 5; 6]] = Ok G ∧
       6 ∈ _node G ∧ has_edge G 1 3 = true ∧ has_edge G 4 5 = false.
Proof.
  destruct (build_graph_arity set_iter_sample set_iter_sample_elem
              [[1; 2; 3; 4; 5; 6]]) as (_ & Hreturns & _ & Hgraph).
  destruct (proj1 Hreturns) as [G HG].
  { apply Forall_cons. split; [simpl; lia | apply Forall_nil_2]. }
  destruct (Hgraph G HG) as (_ & Hnodes & Hedges).
  exists G. split_and!; [exact HG | | |].
  - apply Hnodes. exists [1; 2; 3; 4; 5; 6].
    split; [apply list_elem_of_here|].
    do 5 apply list_elem_of_further. apply list_elem_of_here.
  - apply Hedges. exists 1, 2, 3, 4, [5; 6].
    split; [apply list_elem_of_here|]. left.
    do 4 apply list_elem_of_further. apply list_elem_of_here.
  - destruct (has_edge G 4 5) eqn:Hedge; [|reflexivity]. exfalso.
    apply Hedges in Hedge as (a & b & c & d & rest & Hin & Hpair).
    apply list_elem_of_singleton in Hin. injection Hin as -> -> -> -> ->.
    rewrite !elem_of_cons, !elem_of_nil in Hpair.
    destruct Hpair as [Hpair|Hpair];
      repeat (destruct Hpair as [Hpair|Hpair]; [discriminate Hpair|]);
      exact Hpair.
Defined.

(** The unknot under the sample iteration order. *)
Lemma build_graph_node_set_witness :
  ∃ G, build_graph set_iter_sample [[1; 2; 3; 4]] = Ok G ∧
       _node G ≡ₚ [1; 2; 3; 4].
Proof.
  destruct (proj2 (build_graph_node_set set_iter_sample set_iter_sample_elem))
    as (G & HG & Hnodes & _).
  exists G. split; [exact HG | exact Hnodes].
Defined.

(** In [sample_knot] the arc 7 is in no crossing. *)
Lemma get_arc_position_first_crossing_witness :
  Knot_init set_iter_sample cos_sample sin_sample 6 "sample" sample_pd
    = Done sample_knot ∧
  get_arc_position sample_knot 7 = Ok None ∧
  draw_points sample_knot =
    Ok (omap (first_crossing_position sample_pd (positions sample_knot))
             (path sample_knot)).
Proof.
  assert (Knot_init set_iter_sample cos_sample sin_sample 6 "sample" sample_pd
          = Done sample_knot) as Hk by (vm_compute; reflexivity).
  destruct (get_arc_position_first_crossing set_iter_sample cos_sample
              sin_sample 6 "sample" sample_pd sample_knot Hk)
    as (_ & Hnone & _ & Hdraw).
  split_and!; [exact Hk | | exact Hdraw].
  apply Hnone. intros cross Hc.
  unfold sample_pd in Hc. rewrite !elem_of_cons, elem_of_nil in Hc.
  destruct Hc as [->|[->|[]]]; rewrite !elem_of_cons, elem_of_nil; lia.
Defined.

(** Two constructions from [sample_pd], under different names, budgets and
    set orders that start with the same arc. *)
Lemma Knot_init_same_pd_code_witness :
  ∃ k1 k2,
    Knot_init set_iter_sample cos_sample sin_sample 6 "A" sample_pd = Done k1 ∧
    Knot_init set_iter_other cos_sample sin_sample 9 "B" sample_pd = Done k2 ∧
    _node (graph k1) ≡ₚ _node (graph k2) ∧
    positions k1 = positions k2 ∧ path k1 = path k2.
Proof.
  pose (k1 := mkKnot "A" sample_pd 2 (graph sample_knot)
                (positions sample_knot) (path sample_knot)).
  assert (Knot_init set_iter_sample cos_sample sin_sample 6 "A" sample_pd
          = Done k1) as H1 by (vm_compute; reflexivity).
  assert (Knot_init set_iter_other cos_sample sin_sample 9 "B" sample_pd
          = Done sample_knot_other) as H2 by (vm_compute; reflexivity).
  destruct (Knot_init_same_pd_code set_iter_sample set_iter_other
              cos_sample sin_sample 6 9 "A" "B" sample_pd
              set_iter_sample_elem set_iter_other_elem) as [Hsame _].
  destruct (Hsame k1 sample_knot_other H1 H2)
    as (_ & _ & Hnodes & _ & _ & _ & Hpos & _ & _ & Hpath & _).
  exists k1, sample_knot_other.
  split_and!; [exact H1 | exact H2 | exact Hnodes | exact Hpos |].
  apply Hpath. vm_compute. reflexivity.
Defined.

(** The unknot: four iterations. *)
Lemma trace_path_terminates_witness :
  build_graph set_iter_sample [[1; 2; 3; 4]] = Ok unknot_graph ∧
  ∃ p, trace_path 4 unknot_graph = Done p ∧ (length p ≤ 5)%nat.
Proof.
  assert (build_graph set_iter_sample [[1; 2; 3; 4]] = Ok unknot_graph) as HG
    by (vm_compute; reflexivity).
  split; [exact HG|].
  exact (proj2 (trace_path_terminates set_iter_sample set_iter_sample_elem)
           [1; 2; 3; 4] unknot_graph eq_refl HG).
Defined.

(** The non-equivalent branch with the names at positions 2 and 5. *)
Lemma generate_knot_pair_branches_witness :
  valid_draws 8 (mkDraws 1 0 (2%nat, 5%nat)) ∧
  ∃ knot1 knot2,
    generate_knot_pair set_iter_sample cos_sample sin_sample 40
      (mkDraws 1 0 (2%nat, 5%nat)) = Done (knot1, knot2, false) ∧
    name knot1 ≠ name knot2.
Proof.
  assert (valid_draws 8 (mkDraws 1 0 (2%nat, 5%nat))) as Hd.
  { unfold valid_draws. simpl. repeat split; lia. }
  split; [exact Hd|].
  destruct (generate_knot_pair_branches set_iter_sample set_iter_sample_elem
              cos_sample sin_sample 40 (mkDraws 1 0 (2%nat, 5%nat))
              (le_n 40) Hd)
    as (knot1 & knot2 & equivalent & Hrun & _ & Hflag & Hbranch).
  simpl in Hflag. injection Hflag as <-.
  destruct Hbranch as (nm1 & pd1 & nm2 & pd2 & _ & _ & _ & _ & _ & _ & _ & _ & Hne).
  exists knot1, knot2. split; [exact Hrun | exact Hne].
Defined.

(** The trefoil entry of the dataset. *)
Lemma dataset_components_witness :
  ("Trefoil", [[1; 2; 3; 4]; [5; 6; 7; 8]; [9; 10; 11; 12]]) ∈ KNOT_DEFINITIONS ∧
  ∃ G, build_graph set_iter_sample [[1; 2; 3; 4]; [5; 6; 7; 8]; [9; 10; 11; 12]]
         = Ok G ∧
       ¬ connected G ∧
       ∃ w s, trace_path 12 G = Done (w ++ [s]) ∧ length (w ++ [s]) = 5%nat.
Proof.
  assert (("Trefoil", [[1; 2; 3; 4]; [5; 6; 7; 8]; [9; 10; 11; 12]])
          ∈ KNOT_DEFINITIONS) as Hin.
  { unfold KNOT_DEFINITIONS. apply list_elem_of_further, list_elem_of_here. }
  split; [exact Hin|].
  destruct (proj1 (dataset_components set_iter_sample set_iter_sample_elem
                     cos_sample sin_sample) _ _ Hin)
    as (_ & _ & G & HG & Hnodes & _ & _ & Hconn & Hpath).
  exists G. split_and!; [exact HG | apply Hconn; simpl; lia |].
  destruct (Hpath 12%nat) as (w & s & cross & Hrun & _ & _ & _ & Hlen).
  - apply (build_graph_node_count set_iter_sample set_iter_sample_elem _ _ HG).
  - exists w, s. split; [exact Hrun | exact Hlen].
Defined.

(** * Further properties of the graph builder *)

Section build_graph_more.
Implicit Types (G : Graph) (pd : PDCode) (cross : Crossing).

Lemma build_graph_wf set_iter pd G :
  build_graph set_iter pd = Ok G → graph_wf G.
Proof.
  unfold build_graph. intros HG.
  apply add_edges_loop_spec in HG as (Hwf & _); [done|].
  apply add_nodes_from_wf, empty_graph_wf.
Qed.

Lemma has_edge_sym G u v : graph_wf G → has_edge G u v = has_edge G v u.
Proof.
  intros Hwf. apply eq_true_iff_eq. rewrite !has_edge_adjacent.
  split; apply Hwf.
Qed.

Lemma neighbors_Ok G n :
  graph_wf G → n ∈ _node G ↔ ∃ nbrs, neighbors G n = Ok nbrs.
Proof.
  intros Hwf. rewrite (wf_node_adj G Hwf). unfold neighbors, is_Some.
  destruct (_adj G !! n) as [nbrs|]; split; intros [x Hx]; by eauto.
Qed.

(** The pairs of a crossing are the pairs of two different positions among
    its first four. *)
Lemma crossing_joins_positions cross u v :
  (4 ≤ length cross)%nat →
  crossing_joins cross u v ↔
  ∃ i j : nat, (i < 4)%nat ∧ (j < 4)%nat ∧ i ≠ j ∧
               cross !! i = Some u ∧ cross !! j = Some v.
Proof.
  intros (a & b & c & d & rest & ->)%crossing_long_inv.
  unfold crossing_joins, crossing_edges.
  rewrite !elem_of_cons, !elem_of_nil, !pair_equal_spec.
  split.
  - intros [[[-> ->]|[[-> ->]|[[-> ->]|[[-> ->]|[[-> ->]|[[-> ->]|[]]]]]]]
           |[[-> ->]|[[-> ->]|[[-> ->]|[[-> ->]|[[-> ->]|[[-> ->]|[]]]]]]]].
    + by exists 0%nat, 1%nat; split_and!; try lia.
    + by exists 1%nat, 2%nat; split_and!; try lia.
    + by exists 2%nat, 3%nat; split_and!; try lia.
    + by exists 3%nat, 0%nat; split_and!; try lia.
    + by exists 0%nat, 2%nat; split_and!; try lia.
    + by exists 1%nat, 3%nat; split_and!; try lia.
    + by exists 1%nat, 0%nat; split_and!; try lia.
    + by exists 2%nat, 1%nat; split_and!; try lia.
    + by exists 3%nat, 2%nat; split_and!; try lia.
    + by exists 0%nat, 3%nat; split_and!; try lia.
    + by exists 2%nat, 0%nat; split_and!; try lia.
    + by exists 3%nat, 1%nat; split_and!; try lia.
  - intros (i & j & Hi & Hj & Hij & Hu & Hv).
    destruct i as [|[|[|[|i]]]]; [| | | |exfalso; lia];
      (destruct j as [|[|[|[|j]]]]; [| | | |exfalso; lia]);
      try (by destruct Hij);
      simpl in Hu, Hv; injection Hu as <-; injection Hv as <-;
      (left + right);
      solve [repeat first [left; split; reflexivity | right]].
Qed.

(** Two PD codes that offer the same identifiers and the same crossing
    pairs give graphs with the same nodes, edges and degrees. *)
Lemma build_graph_same_pairs set_iter1 set_iter2 pd1 pd2 G1 G2 :
  (∀ l x, x ∈ set_iter1 l ↔ x ∈ l) → (∀ l x, x ∈ set_iter2 l ↔ x ∈ l) →
  build_graph set_iter1 pd1 = Ok G1 → build_graph set_iter2 pd2 = Ok G2 →
  (∀ x, (∃ cross, cross ∈ pd1 ∧ x ∈ cross) ↔ (∃ cross, cross ∈ pd2 ∧ x ∈ cross)) →
  (∀ u v, (∃ cross, cross ∈ pd1 ∧ crossing_joins cross u v) ↔
          (∃ cross, cross ∈ pd2 ∧ crossing_joins cross u v)) →
  _node G1 ≡ₚ _node G2 ∧
  (∀ u v, has_edge G1 u v = has_edge G2 u v) ∧
  (∀ x, degree G1 x = degree G2 x) ∧
  number_of_edges G1 = number_of_edges G2.
Proof.
  intros Hs1 Hs2 HG1 HG2 Hnodes Hpairs.
  pose proof (build_graph_spec set_iter1 Hs1 pd1 G1 HG1) as (Hwf1 & Hn1 & Ha1 & _).
  pose proof (build_graph_spec set_iter2 Hs2 pd2 G2 HG2) as (Hwf2 & Hn2 & Ha2 & _).
  assert (_node G1 ≡ₚ _node G2) as Hperm.
  { apply NoDup_Permutation; [apply Hwf1 | apply Hwf2 |].
    intros x. by rewrite Hn1, Hn2. }
  assert (∀ u v, adjacent G1 u v ↔ adjacent G2 u v) as Hadj.
  { intros u v. by rewrite Ha1, Ha2. }
  assert (∀ u v, has_edge G1 u v = has_edge G2 u v) as Hedge.
  { intros u v. apply eq_true_iff_eq. by rewrite !has_edge_adjacent. }
  assert (∀ x, degree G1 x = degree G2 x) as Hdeg.
  { intros x. unfold degree.
    destruct (_adj G1 !! x) as [nbrs1|] eqn:H1, (_adj G2 !! x) as [nbrs2|] eqn:H2.
    - assert (nbrs1 ≡ₚ nbrs2) as Hp.
      { apply NoDup_Permutation;
          [by eapply (wf_adj_NoDup G1) | by eapply (wf_adj_NoDup G2) |].
        intros v. specialize (Hadj x v). unfold adjacent in Hadj.
        rewrite H1, H2 in Hadj. split; intros Hv.
        - destruct (proj1 Hadj) as (? & [= <-] & ?); eauto.
        - destruct (proj2 Hadj) as (? & [= <-] & ?); eauto. }
      rewrite (Permutation_length Hp).
      f_equal. apply (f_equal (λ b : bool, if b then 1%nat else 0%nat)).
      apply bool_decide_ext. by rewrite Hp.
    - exfalso.
      assert (x ∈ _node G2) as Hx.
      { rewrite <- Hperm. apply (wf_node_adj G1 Hwf1). eauto. }
      apply (wf_node_adj G2 Hwf2) in Hx as [? ?]. congruence.
    - exfalso.
      assert (x ∈ _node G1) as Hx.
      { rewrite Hperm. apply (wf_node_adj G2 Hwf2). eauto. }
      apply (wf_node_adj G1 Hwf1) in Hx as [? ?]. congruence.
    - done. }
  split_and!; [done..|].
  unfold number_of_edges. f_equal. rewrite Hperm.
  apply Nat.le_antisymm; apply sum_list_with_le; intros x _; rewrite Hdeg; lia.
Qed.

Section with_set_iter.
Context (set_iter : list Z → list Z).
Hypothesis set_iter_elem : ∀ l x, x ∈ set_iter l ↔ x ∈ l.

(** X1: a built graph is undirected and closed: [has_edge] is symmetric, both
    ends of an edge are nodes, no node is listed twice, and [neighbors]
    succeeds on exactly the nodes and raises [NetworkXError] elsewhere. *)
Theorem build_graph_undirected pd G :
  build_graph set_iter pd = Ok G →
  NoDup (_node G) ∧
  (∀ u v, has_edge G u v = has_edge G v u) ∧
  (∀ u v, has_edge G u v = true → u ∈ _node G ∧ v ∈ _node G) ∧
  (∀ n, n ∈ _node G ↔ ∃ nbrs, neighbors G n = Ok nbrs) ∧
  (∀ n, n ∉ _node G ↔ neighbors G n = Err NetworkXError).
Proof using Type.
  intros Hwf%build_graph_wf. split_and!.
  - apply Hwf.
  - intros u v. by apply has_edge_sym.
  - intros u v Huv%has_edge_adjacent. split.
    + by eapply adjacent_is_node.
    + by eapply (wf_adj_node G Hwf).
  - intros n. by apply neighbors_Ok.
  - intros n. rewrite (neighbors_Ok G n Hwf). unfold neighbors.
    destruct (_adj G !! n); split; try done; [intros []; eauto | by intros _ [? ?]].
Qed.

(** X4: in a built graph a node has no neighbour exactly when it is not
    among the first four entries of any crossing: the entries of a tuple
    beyond the fourth become isolated nodes unless they occur among the first
    four of some tuple. *)
Theorem build_graph_isolated_nodes pd G x :
  build_graph set_iter pd = Ok G →
  neighbors G x = Ok [] ↔
  (∃ cross, cross ∈ pd ∧ x ∈ cross) ∧ ∀ cross, cross ∈ pd → x ∉ take 4 cross.
Proof using set_iter_elem.
  intros HG.
  pose proof (proj2 (build_graph_Ok set_iter pd) ltac:(eauto)) as Hlong.
  pose proof (build_graph_spec set_iter set_iter_elem pd G HG) as (Hwf & Hn & Ha & _).
  assert (∀ cross, cross ∈ pd → x ∈ take 4 cross → ∃ v, adjacent G x v) as Hfirst.
  { intros cross Hc (i & Hi & Hlt)%elem_of_take.
    pose proof (proj1 (Forall_forall _ _) Hlong cross Hc) as Hlen. simpl in Hlen.
    destruct (lookup_lt_is_Some_2 cross (if decide (i = 0%nat) then 1%nat else 0%nat))
      as [v Hv]; [case_decide; lia|].
    exists v. apply Ha. exists cross. split; [done|].
    apply crossing_joins_positions; [done|].
    exists i, (if decide (i = 0%nat) then 1%nat else 0%nat).
    split_and!; try done; case_decide; lia. }
  split.
  - intros Hx. split.
    + apply Hn, (neighbors_Ok G x Hwf). eauto.
    + intros cross Hc Hin. destruct (Hfirst cross Hc Hin) as (v & nbrs & Hnb & Hv).
      unfold neighbors in Hx. rewrite Hnb in Hx. injection Hx as ->.
      by apply elem_of_nil in Hv.
  - intros [Hnode Hnone].
    apply Hn, (neighbors_Ok G x Hwf) in Hnode as [nbrs Hx]. rewrite Hx. f_equal.
    destruct nbrs as [|v nbrs]; [done|]. exfalso.
    assert (adjacent G x v) as Hadj.
    { unfold neighbors in Hx. destruct (_adj G !! x) as [l|] eqn:Hl; [|done].
      injection Hx as ->. exists (v :: nbrs). split; [done|by left]. }
    apply Ha in Hadj as (cross & Hc & Hj).
    pose proof (proj1 (Forall_forall _ _) Hlong cross Hc) as Hlen. simpl in Hlen.
    apply crossing_joins_positions in Hj as (i & j & Hi & _ & _ & Hu & _); [|done].
    apply (Hnone cross Hc), elem_of_take. eauto.
Qed.

End with_set_iter.

(** X2: the nodes, edges, degrees and edge count of the built graph depend
    only on which crossings the PD code contains: not on their order, not on
    repetitions, not on the iteration order of the set of arcs. *)
Theorem build_graph_same_crossings set_iter1 set_iter2 pd1 pd2 G1 G2 :
  (∀ l x, x ∈ set_iter1 l ↔ x ∈ l) → (∀ l x, x ∈ set_iter2 l ↔ x ∈ l) →
  (∀ cross, cross ∈ pd1 ↔ cross ∈ pd2) →
  build_graph set_iter1 pd1 = Ok G1 → build_graph set_iter2 pd2 = Ok G2 →
  _node G1 ≡ₚ _node G2 ∧
  (∀ u v, has_edge G1 u v = has_edge G2 u v) ∧
  (∀ x, degree G1 x = degree G2 x) ∧
  number_of_edges G1 = number_of_edges G2.
Proof.
  intros Hs1 Hs2 Hsame HG1 HG2.
  apply (build_graph_same_pairs set_iter1 set_iter2 pd1 pd2); try done.
  - intros x. by setoid_rewrite Hsame.
  - intros u v. by setoid_rewrite Hsame.
Qed.

(** X3: reordering the four identifiers inside crossings does not change
    the graph: the six pairs of a 4-tuple are all the pairs of its entries,
    so the cyclic order of a crossing leaves no trace in the nodes, edges or
    degrees. *)
Theorem build_graph_forgets_cyclic_order set_iter pd1 pd2 G1 G2 :
  (∀ l x, x ∈ set_iter l ↔ x ∈ l) →
  Forall2 (λ cross1 cross2, length cross1 = 4%nat ∧ cross1 ≡ₚ cross2) pd1 pd2 →
  build_graph set_iter pd1 = Ok G1 → build_graph set_iter pd2 = Ok G2 →
  _node G1 ≡ₚ _node G2 ∧
  (∀ u v, has_edge G1 u v = has_edge G2 u v) ∧
  (∀ x, degree G1 x = degree G2 x) ∧
  number_of_edges G1 = number_of_edges G2.
Proof.
  intros Hs Hperm HG1 HG2.
  assert (∀ cross1 cross2 u v, length cross1 = 4%nat → cross1 ≡ₚ cross2 →
            crossing_joins cross1 u v → crossing_joins cross2 u v) as Hjoin.
  { intros cross1 cross2 u v Hlen Hp.
    pose proof (Permutation_length Hp) as Hlen2.
    rewrite !crossing_joins_positions by lia.
    intros (i & j & Hi & Hj & Hij & Hu & Hv).
    apply Permutation_inj in Hp as (_ & f & Hinj & Hf).
    exists (f i), (f j). rewrite <- !Hf.
    assert (∀ n x, cross1 !! n = Some x → (f n < 4)%nat) as Hlt.
    { intros n x Hn. rewrite Hf in Hn. apply lookup_lt_Some in Hn. lia. }
    split_and!; eauto; intros Heq; by apply Hij, Hinj. }
  apply (build_graph_same_pairs set_iter set_iter pd1 pd2); try done.
  - intros x. split.
    + intros (c1 & (i & Hi)%list_elem_of_lookup & Hx).
      destruct (Forall2_lookup_l _ _ _ _ _ Hperm Hi) as (c2 & Hc2 & _ & Hp).
      exists c2. split; [by eapply list_elem_of_lookup_2 | by rewrite <- Hp].
    + intros (c2 & (i & Hi)%list_elem_of_lookup & Hx).
      destruct (Forall2_lookup_r _ _ _ _ _ Hperm Hi) as (c1 & Hc1 & _ & Hp).
      exists c1. split; [by eapply list_elem_of_lookup_2 | by rewrite Hp].
  - intros u v. split.
    + intros (c1 & (i & Hi)%list_elem_of_lookup & Hj).
      destruct (Forall2_lookup_l _ _ _ _ _ Hperm Hi) as (c2 & Hc2 & Hlen & Hp).
      exists c2. split; [by eapply list_elem_of_lookup_2 | by eapply Hjoin].
    + intros (c2 & (i & Hi)%list_elem_of_lookup & Hj).
      destruct (Forall2_lookup_r _ _ _ _ _ Hperm Hi) as (c1 & Hc1 & Hlen & Hp).
      exists c1. split; [by eapply list_elem_of_lookup_2|].
      eapply (Hjoin c2 c1); [|done..].
      by rewrite <- (Permutation_length Hp).
Qed.

End build_graph_more.

(** * Further properties of the traversal and of the constructor *)

Section traversal_more.
Context (set_iter : list Z → list Z).
Hypothesis set_iter_elem : ∀ l x, x ∈ set_iter l ↔ x ∈ l.
Context (np_cos np_sin : float → float).
Implicit Types (G : Graph) (pd : PDCode) (cross : Crossing) (k : Knot).

Lemma consecutive_edges_reachable G p s :
  head p = Some s → consecutive_edges G p →
  ∀ x, x ∈ p → rtc (adjacent G) s x.
Proof using Type.
  intros Hhead Hwalk x (j & Hj)%list_elem_of_lookup.
  revert x Hj. induction j as [|j IH]; intros x Hj.
  - rewrite head_lookup in Hhead. by simplify_eq.
  - destruct (lookup_lt_is_Some_2 p j) as [y Hy].
    { apply lookup_lt_Some in Hj. lia. }
    eapply rtc_r; [by apply IH|]. apply has_edge_adjacent. by eapply Hwalk.
Qed.

(** The shape of every returned path, for the statements below. *)
Lemma trace_path_shape G fuel p :
  graph_wf G → trace_path fuel G = Done p →
  ∃ s w z,
    head (_node G) = Some s ∧ head w = Some s ∧ last w = Some z ∧
    p = w ++ (if has_edge G z s then [s] else []) ∧
    NoDup w ∧ (∀ x, x ∈ p → x ∈ _node G) ∧ consecutive_edges G p ∧
    (∀ v, has_edge G z v = true → v ∈ w).
Proof using Type.
  intros Hwf (s & w & z & Hs & -> & Hhead & [Hlast Hnd _ Hnodes Hwalk] & Hmax)
    %trace_path_Done_inv; [|done].
  exists s, w, z. split_and!; try done.
  - intros x [?|Hx]%elem_of_app; [by apply Hnodes|].
    destruct (has_edge G z s); [|by apply elem_of_nil in Hx].
    apply list_elem_of_singleton in Hx as ->. by apply head_Some_elem_of.
  - destruct (has_edge G z s) eqn:Hzs; [|by rewrite app_nil_r].
    by eapply consecutive_edges_snoc.
  - intros v Hv%has_edge_adjacent. by apply Hmax.
Qed.

(** X5: every returned path, the closing repeat included, is a walk in the
    graph that starts at the first node: neighbouring entries are joined by
    an edge, all entries are nodes, and each is reachable from the first
    node, so the path never leaves the component of its start. *)
Theorem trace_path_stays_in_component pd G fuel p :
  build_graph set_iter pd = Ok G → trace_path fuel G = Done p →
  ∃ s, head (_node G) = Some s ∧ head p = Some s ∧
    consecutive_edges G p ∧
    ∀ x, x ∈ p → x ∈ _node G ∧ rtc (adjacent G) s x.
Proof using Type.
  intros Hwf%build_graph_wf
    (s & w & z & Hs & Hhead & _ & -> & _ & Hnodes & Hwalk & _)%trace_path_shape;
    [|done].
  assert (head (w ++ (if has_edge G z s then [s] else [])) = Some s) as Hp.
  { destruct w; [done|]. by simpl in *. }
  exists s. split_and!; [done..|].
  intros x Hx. split; [by apply Hnodes|].
  by eapply consecutive_edges_reachable.
Qed.

(** X6: the walk stops only at a dead end: every neighbour of the arc at
    which the walk part of a returned path ends is already on the walk. *)
Theorem trace_path_ends_at_dead_end pd G fuel p :
  build_graph set_iter pd = Ok G → trace_path fuel G = Done p →
  ∃ w first_arc last_arc,
    head w = Some first_arc ∧ last w = Some last_arc ∧
    p = w ++ (if has_edge G last_arc first_arc then [first_arc] else []) ∧
    ∀ v, has_edge G last_arc v = true → v ∈ w.
Proof using Type.
  intros Hwf%build_graph_wf
    (s & w & z & _ & Hhead & Hlast & -> & _ & _ & _ & Hmax)%trace_path_shape;
    [|done].
  by exists w, s, z.
Qed.

(** X7: on a PD code of valid crossings the returned path contains all four
    identifiers of some crossing, the one in which the walk ends, so it has at
    least four entries. *)
Theorem trace_path_covers_last_crossing pd G fuel p :
  Forall valid_crossing pd →
  build_graph set_iter pd = Ok G → trace_path fuel G = Done p →
  (4 ≤ length p)%nat ∧
  ∃ cross, cross ∈ pd ∧ ∀ x, x ∈ cross → x ∈ p.
Proof using set_iter_elem.
  intros Hvalid HG Hp.
  pose proof (build_graph_spec set_iter set_iter_elem pd G HG) as (Hwf & Hn & Ha & _).
  apply trace_path_shape in Hp
    as (s & w & z & _ & _ & Hlast & -> & Hnd & Hnodes & _ & Hmax); [|done].
  assert (z ∈ w) as Hz by by eapply last_Some_elem_of.
  destruct (proj1 (Hn z)) as (cross & Hc & Hzc).
  { apply Hnodes, elem_of_app. by left. }
  pose proof (proj1 (Forall_forall _ _) Hvalid cross Hc) as Hcv.
  assert (∀ x, x ∈ cross → x ∈ w) as Hcover.
  { intros x Hx. destruct (decide (x = z)) as [->|Hne]; [done|].
    apply Hmax, has_edge_adjacent, Ha. exists cross. split; [done|].
    apply crossing_joins_valid; [done|]. by split_and!. }
  split.
  - rewrite length_app. destruct Hcv as [<- Hcnd].
    pose proof (submseteq_length _ _ (NoDup_submseteq _ _ Hcnd Hcover)). lia.
  - exists cross. split; [done|]. intros x Hx. apply elem_of_app. left. auto.
Qed.

(** X8: what the constructor returns, given a loop budget of the number of
    tuple entries.  It raises [IndexError] when the PD code is empty (from
    [all_arcs[0]]) or some tuple has fewer than four entries (from the tuple
    subscript); otherwise it returns a knot that carries the name and the PD
    code it was given, [crossings] equal to the number of tuples, one
    position for each crossing, the built graph and its traced path. *)
Theorem Knot_init_outcome fuel nm pd :
  (length (concat pd) ≤ fuel)%nat →
  (pd = [] ∨ Exists (λ cross, length cross < 4)%nat pd →
     Knot_init set_iter np_cos np_sin fuel nm pd = Raised IndexError) ∧
  (pd ≠ [] ∧ Forall (λ cross, 4 ≤ length cross)%nat pd →
     ∃ k, Knot_init set_iter np_cos np_sin fuel nm pd = Done k ∧
       name k = nm ∧ pd_code k = pd ∧ crossings k = length pd ∧
       length (positions k) = length pd ∧
       build_graph set_iter pd = Ok (graph k) ∧
       trace_path fuel (graph k) = Done (path k)).
Proof using set_iter_elem.
  intros Hfuel. split.
  - intros [->|Hshort].
    + assert (set_iter [] = []) as Hempty.
      { destruct (set_iter []) as [|x l] eqn:Hl; [done|].
        assert (x ∈ set_iter []) as Hx by (rewrite Hl; by left).
        apply (proj1 (set_iter_elem _ _)) in Hx. by apply elem_of_nil in Hx. }
      unfold Knot_init, build_graph. simpl. by rewrite Hempty.
    + unfold Knot_init, build_graph.
      by rewrite add_edges_loop_short.
  - intros [Hpd Hlong].
    destruct (Knot_init_Done set_iter set_iter_elem np_cos np_sin fuel nm pd)
      as (k & Hk & _); [done..|].
    exists k. split; [done|].
    apply Knot_init_inv in Hk as (G & p & HG & Hp & ->). simpl.
    split_and!; try done. apply calculate_positions_length.
Qed.

End traversal_more.

(** * Properties of the point sequence and of [Knot.draw] *)

Section draw_more.
Context (set_iter : list Z → list Z).
Hypothesis set_iter_elem : ∀ l x, x ∈ set_iter l ↔ x ∈ l.
Context (np_cos np_sin : float → float).
Context (Delaunay : list Point → outcome (list (nat * nat * nat))).
Context (edge_iter : list (nat * nat) → list (nat * nat)).
Implicit Types (G : Graph) (pd : PDCode) (cross : Crossing) (k : Knot).

Local Abbreviation Knot_init' := (Knot_init set_iter np_cos np_sin).
Local Abbreviation draw' := (draw Delaunay edge_iter).

Lemma first_crossing_position_Some pd (positions : list Point) arc :
  length positions = length pd → (∃ cross, cross ∈ pd ∧ arc ∈ cross) →
  ∃ i pos, first_crossing_at pd arc i ∧ positions !! i = Some pos ∧
           first_crossing_position pd positions arc = Some pos.
Proof using Type.
  intros Hlen (cross & Hc & Harc).
  destruct (list_find_elem_of (λ cross, arc ∈ cross) pd cross Hc Harc)
    as [[i c] Hfind].
  unfold first_crossing_position. rewrite Hfind. simpl.
  apply list_find_Some in Hfind as (Hi & Hin & Hfirst).
  destruct (lookup_lt_is_Some_2 positions i) as [pos Hpos].
  { rewrite Hlen. by eapply lookup_lt_Some. }
  exists i, pos. split_and!; [|done..].
  split; [eauto|]. intros j cross' Hj Hc'. eauto.
Qed.

Lemma omap_Forall2 {A B : Type} (f : A → option B) (P : A → B → Prop) l :
  (∀ x, x ∈ l → ∃ y, f x = Some y ∧ P x y) → Forall2 P l (omap f l).
Proof using Type.
  induction l as [|x l IH]; intros Hf; simpl; [constructor|].
  destruct (Hf x ltac:(left)) as (y & -> & HP).
  constructor; [done|]. apply IH. intros z Hz. apply Hf. by right.
Qed.

(** The point sequence of a constructed knot. *)
Lemma draw_points_Forall2 fuel nm pd k :
  Knot_init' fuel nm pd = Done k →
  ∃ points, draw_points k = Ok points ∧
    Forall2 (λ arc pos, ∃ i, first_crossing_at pd arc i ∧
                             positions k !! i = Some pos) (path k) points.
Proof using set_iter_elem.
  intros (G & p & HG & Hp & ->)%Knot_init_inv.
  set (k := mkKnot _ _ _ _ _ _).
  pose proof (build_graph_spec set_iter set_iter_elem pd G HG) as (Hwf & Hn & _).
  assert (length (positions k) = length pd) as Hlen.
  { simpl. apply calculate_positions_length. }
  exists (omap (first_crossing_position pd (positions k)) (path k)). split.
  - unfold draw_points. rewrite (draw_points_loop_omap k
      (first_crossing_position pd (positions k))); [done|].
    intros arc. by apply (get_arc_position_first k).
  - apply omap_Forall2. intros arc Harc.
    apply (path_arcs_are_nodes G fuel p arc Hwf Hp), Hn in Harc.
    destruct (first_crossing_position_Some pd (positions k) arc Hlen Harc)
      as (i & pos & Hi & Hpos & ->).
    eauto.
Qed.

(** X9: the point sequence that [draw] builds for a constructed knot has one
    point for every entry of the path, none is skipped: the point of an arc
    is the position of the first crossing that contains it.  So the sequence
    is never empty. *)
Theorem draw_points_one_per_arc fuel nm pd k :
  Knot_init' fuel nm pd = Done k →
  ∃ points, draw_points k = Ok points ∧
    length points = length (path k) ∧ points ≠ [] ∧
    Forall2 (λ arc pos, ∃ i, first_crossing_at pd arc i ∧
                             positions k !! i = Some pos) (path k) points.
Proof using set_iter_elem.
  intros Hk. destruct (draw_points_Forall2 fuel nm pd k Hk) as (points & Hdraw & Hall).
  exists points. split_and!; [done | by rewrite (Forall2_length _ _ _ Hall) | | done].
  apply Knot_init_inv in Hk as (G & p & HG & Hp & ->). simpl in *.
  apply trace_path_shape in Hp as (s & w & z & _ & Hhead & _ & -> & _);
    [|by eapply build_graph_wf].
  intros ->. apply Forall2_length in Hall. rewrite length_app in Hall.
  destruct w; [done|]. simpl in Hall. lia.
Qed.

(** On a PD code of valid crossings without a shared identifier, all points
    of the sequence are the position of one crossing. *)
Lemma draw_points_replicate fuel nm pd k :
  disjoint_crossings pd →
  Knot_init' fuel nm pd = Done k →
  ∃ i pos, positions k !! i = Some pos ∧ draw_points k = Ok (replicate 5 pos).
Proof using set_iter_elem.
  intros Hdisj Hk.
  destruct (draw_points_Forall2 fuel nm pd k Hk) as (points & Hdraw & Hall).
  apply Knot_init_inv in Hk as (G & p & HG & Hp & ->). simpl in *.
  assert (pd ≠ []) as Hpd.
  { intros ->. pose proof (build_graph_spec set_iter set_iter_elem [] G HG)
      as (Hwf & Hn & _).
    apply trace_path_shape in Hp as (s & _ & _ & Hs & _); [|done].
    apply head_Some_elem_of, Hn in Hs as (? & ?%elem_of_nil & _). done. }
  destruct (disjoint_trace_path set_iter set_iter_elem pd G Hdisj HG
              (fuel `max` length (_node G)) Hpd ltac:(lia))
    as (w & s & cross & Hrun & Hhead & Hc & Hperm).
  rewrite (trace_path_fuel_mono fuel), Hp in Hrun; [|lia|by rewrite Hp].
  injection Hrun as ->.
  assert (∀ arc, arc ∈ w ++ [s] → arc ∈ cross) as Hin.
  { intros arc [Harc| ->%list_elem_of_singleton]%elem_of_app.
    - by rewrite <- Hperm.
    - rewrite <- Hperm. by apply head_Some_elem_of. }
  assert (length (w ++ [s]) = 5%nat) as Hlen.
  { rewrite length_app, (Permutation_length Hperm). simpl.
    destruct Hdisj as [Hvalid _].
    by destruct (proj1 (Forall_forall _ _) Hvalid cross Hc) as [-> _]. }
  (* all arcs of the crossing have the same first crossing index *)
  assert (∀ arc1 arc2 i1 i2, arc1 ∈ cross → arc2 ∈ cross →
            first_crossing_at pd arc1 i1 → first_crossing_at pd arc2 i2 →
            (i1 ≤ i2)%nat) as Hle.
  { intros arc1 arc2 i1 i2 H1 H2 [(c1 & Hc1 & Ha1) Hf1] [(c2 & Hc2 & Ha2) Hf2].
    destruct (decide (i1 ≤ i2)%nat) as [|Hgt]; [done|]. exfalso.
    assert (c2 = cross) as ->.
    { destruct Hdisj as [_ Hd]. apply (Hd c2 cross arc2); try done.
      by eapply list_elem_of_lookup_2. }
    apply (Hf1 i2 cross); [lia|done..]. }
  assert (s ∈ cross) as Hs by (apply Hin, elem_of_app; right; by left).
  apply Forall2_lookup_r with (i := 0%nat) (y := default (0%float, 0%float) (points !! 0%nat))
    in Hall as Hfirst.
  2:{ destruct points; [|done]. apply Forall2_length in Hall. rewrite Hlen in Hall.
      done. }
  destruct Hfirst as (arc0 & Harc0 & i0 & Hi0 & Hpos0).
  set (pos0 := default (0%float, 0%float) (points !! 0%nat)) in *.
  exists i0, pos0. split; [done|]. rewrite Hdraw. f_equal.
  assert (arc0 ∈ cross) as Ha0 by (by eapply Hin, list_elem_of_lookup_2).
  change [pos0; pos0; pos0; pos0; pos0] with (replicate 5 pos0).
  rewrite <- Hlen, (Forall2_length _ _ _ Hall).
  symmetry. apply replicate_as_Forall_2; [done|].
  apply Forall_forall. intros pos (j & Hj)%list_elem_of_lookup.
  destruct (Forall2_lookup_r _ _ _ _ _ Hall Hj) as (arc & Harc & i & Hi & Hpos).
  assert (arc ∈ cross) as Ha by (by eapply Hin, list_elem_of_lookup_2).
  assert (i = i0) as -> by (apply Nat.le_antisymm; eauto).
  congruence.
Qed.

Lemma KNOT_DEFINITIONS_disjoint nm pd :
  (nm, pd) ∈ KNOT_DEFINITIONS → disjoint_crossings pd.
Proof using Type.
  intros Hin.
  pose proof (proj1 (Forall_forall _ _) KNOT_DEFINITIONS_blocks _ Hin) as Hpd.
  simpl in Hpd. rewrite Hpd. apply dataset_pd_disjoint.
Qed.

(** X10: for a PD code whose crossings are valid and share no identifier
    the point sequence is five copies of the position of one crossing: the
    polyline of the knot is a single point, and the triangulation is asked
    for five coincident points.  Every PD code of the dataset is of this
    kind. *)
Theorem draw_points_coincide :
  (∀ fuel nm pd k,
     disjoint_crossings pd → Knot_init' fuel nm pd = Done k →
     ∃ i pos, positions k !! i = Some pos ∧
              draw_points k = Ok (replicate 5 pos)) ∧
  (∀ nm pd, (nm, pd) ∈ KNOT_DEFINITIONS → disjoint_crossings pd).
Proof using set_iter_elem.
  split; [apply draw_points_replicate | apply KNOT_DEFINITIONS_disjoint].
Qed.

(** On a PD code of valid crossings the path has at least four entries. *)
Lemma trace_path_length_valid pd G fuel p :
  Forall valid_crossing pd →
  build_graph set_iter pd = Ok G → trace_path fuel G = Done p →
  (4 ≤ length p)%nat.
Proof using set_iter_elem.
  intros Hvalid HG Hp.
  pose proof (build_graph_spec set_iter set_iter_elem pd G HG) as (Hwf & Hn & Ha & _).
  apply trace_path_shape in Hp
    as (s & w & z & _ & _ & Hlast & -> & Hnd & Hnodes & _ & Hmax); [|done].
  assert (z ∈ w) as Hz by by eapply last_Some_elem_of.
  destruct (proj1 (Hn z)) as (cross & Hc & Hzc).
  { apply Hnodes, elem_of_app. by left. }
  pose proof (proj1 (Forall_forall _ _) Hvalid cross Hc) as Hcv.
  assert (∀ x, x ∈ cross → x ∈ w) as Hcover.
  { intros x Hx. destruct (decide (x = z)) as [->|Hne]; [done|].
    apply Hmax, has_edge_adjacent, Ha. exists cross. split; [done|].
    apply crossing_joins_valid; [done|]. by split_and!. }
  rewrite length_app. destruct Hcv as [<- Hcnd].
  pose proof (submseteq_length _ _ (NoDup_submseteq _ _ Hcnd Hcover)). lia.
Qed.

(** X16: for a knot constructed from a PD code of valid crossings the point
    sequence has more than three points, so [draw] always asks for the
    triangulation, and whenever that raises [draw] raises the same exception
    with nothing plotted. *)
Theorem draw_always_triangulates fuel nm pd k title ax :
  Forall valid_crossing pd →
  Knot_init' fuel nm pd = Done k →
  ∃ points, draw_points k = Ok points ∧ (3 < length points)%nat ∧
    ∀ e, Delaunay points = Raises e →
         draw' k title ax = (ax ++ draw_header title nm, Some e).
Proof using set_iter_elem.
  intros Hvalid Hk.
  destruct (draw_points_Forall2 fuel nm pd k Hk) as (points & Hdraw & Hall).
  apply Forall2_length in Hall.
  apply Knot_init_inv in Hk as (G & p & HG & Hp & ->). simpl in Hall.
  pose proof (trace_path_length_valid pd G fuel p Hvalid HG Hp) as Hlen.
  exists points. split_and!; [done | lia |].
  intros e He. unfold draw. rewrite Hdraw.
  destruct points as [|pt points]; [simpl in Hall; lia|].
  rewrite bool_decide_eq_true_2 by lia. by rewrite He.
Qed.

End draw_more.

(** * [Knot.draw] *)

Section draw_calls.
Context (set_iter : list Z → list Z).
Hypothesis set_iter_elem : ∀ l x, x ∈ set_iter l ↔ x ∈ l.
Context (np_cos np_sin : float → float).
Context (Delaunay : list Point → outcome (list (nat * nat * nat))).
Context (edge_iter : list (nat * nat) → list (nat * nat)).
Implicit Types (pd : PDCode) (k : Knot) (points : list Point).

Local Abbreviation Knot_init' := (Knot_init set_iter np_cos np_sin).
Local Abbreviation draw' := (draw Delaunay edge_iter).

Lemma draw_mesh_in_range points edges ax :
  Forall (λ edge, edge.1 < length points ∧ edge.2 < length points)%nat edges →
  draw_mesh points edges ax = (ax ++ map (mesh_line points) edges, None).
Proof using Type.
  intros Hedges. revert ax.
  induction Hedges as [|[i j] edges [Hi Hj] _ IH]; intros ax; simpl in *.
  - by rewrite app_nil_r.
  - destruct (lookup_lt_is_Some_2 points i Hi) as [p1 H1].
    destruct (lookup_lt_is_Some_2 points j Hj) as [p2 H2].
    unfold getitem. rewrite H1, H2, IH, <- app_assoc.
    unfold mesh_line. cbn [fst snd]. by rewrite H1, H2.
Qed.

Lemma simplex_edges_in_range (n : nat) simplex edge :
  (simplex.1.1 < n ∧ simplex.1.2 < n ∧ simplex.2 < n)%nat →
  edge ∈ simplex_edges simplex → (edge.1 ≤ edge.2 ∧ edge.2 < n)%nat.
Proof using Type.
  destruct simplex as [[s0 s1] s2]. simpl. intros (H0 & H1 & H2).
  unfold simplex_edges, sorted_pair.
  rewrite !elem_of_cons, elem_of_nil.
  intros [->|[->|[->|[]]]]; case_decide; simpl; lia.
Qed.

Lemma elem_of_concat_list {A : Type} (ls : list (list A)) (x : A) :
  x ∈ concat ls ↔ ∃ l, l ∈ ls ∧ x ∈ l.
Proof using Type.
  induction ls as [|l ls IH]; simpl.
  - split; [by intros ?%elem_of_nil | by intros (? & ?%elem_of_nil & _)].
  - rewrite elem_of_app, IH. split.
    + intros [Hx|(l' & Hl' & Hx)].
      * exists l. split; [by left|done].
      * exists l'. split; [by right|done].
    + intros (l' & [->|Hl']%elem_of_cons & Hx); [by left|].
      right. by exists l'.
Qed.

Lemma crossing_glyphs_length (positions : list Point) :
  length (concat (map crossing_glyph positions)) = (4 * length positions)%nat.
Proof using Type. induction positions as [|pos l IH]; simpl; lia. Qed.

(** X11: what [draw] does for a constructed knot.  It never takes the early
    return.  With at most three points it plots the path and the crossing
    glyphs.  With more it asks for the triangulation: if that raises, [draw]
    raises the same after the three header calls and plots nothing; if it
    returns simplices over the indices of the points, [draw] plots one mesh
    line for each edge of the edge set, then the path through all points,
    then four calls for each crossing, and sets the limits to [-2, 2]. *)
Theorem draw_calls fuel nm pd k title ax :
  Knot_init' fuel nm pd = Done k →
  ∃ points, draw_points k = Ok points ∧ length points = length (path k) ∧
    length (concat (map crossing_glyph (positions k))) = (4 * crossings k)%nat ∧
    ((length points ≤ 3)%nat →
       draw' k title ax =
         (ax ++ draw_header title nm ++ draw_body points (positions k), None)) ∧
    (∀ e, (3 < length points)%nat → Delaunay points = Raises e →
       draw' k title ax = (ax ++ draw_header title nm, Some e)) ∧
    (∀ simplices,
       (3 < length points)%nat → Delaunay points = Returns simplices →
       Forall (λ s, s.1.1 < length points ∧ s.1.2 < length points ∧
                    s.2 < length points)%nat simplices →
       (∀ l edge, edge ∈ edge_iter l → edge ∈ l) →
       draw' k title ax =
         (ax ++ draw_header title nm ++
          map (mesh_line points) (edge_iter (concat (map simplex_edges simplices))) ++
          draw_body points (positions k), None)).
Proof using set_iter_elem.
  intros Hk.
  destruct (draw_points_Forall2 set_iter set_iter_elem np_cos np_sin fuel nm pd k Hk)
    as (points & Hdraw & Hall).
  pose proof (Forall2_length _ _ _ Hall) as Hlen.
  apply Knot_init_inv in Hk as (G & p & HG & Hp & ->).
  set (k := mkKnot _ _ _ _ _ _) in *.
  assert (points ≠ []) as Hne.
  { simpl in Hlen. apply trace_path_shape in Hp as (s & w & z & _ & Hhead & _ & -> & _);
      [|by eapply build_graph_wf].
    intros ->. rewrite length_app in Hlen. destruct w; [done|]. simpl in Hlen. lia. }
  exists points. split_and!; [done | done | | | |].
  - rewrite crossing_glyphs_length. simpl. by rewrite calculate_positions_length.
  - intros Hshort. unfold draw. rewrite Hdraw.
    destruct points as [|pt points]; [done|].
    rewrite bool_decide_eq_false_2 by lia.
    unfold draw_header, draw_body. simpl name. by rewrite <- !app_assoc.
  - intros e Hlong He. unfold draw. rewrite Hdraw.
    destruct points as [|pt points]; [done|].
    rewrite bool_decide_eq_true_2 by done. by rewrite He.
  - intros simplices Hlong Hs Hrange Hiter. unfold draw. rewrite Hdraw.
    destruct points as [|pt points]; [done|].
    rewrite bool_decide_eq_true_2 by done. rewrite Hs.
    rewrite draw_mesh_in_range.
    + unfold draw_header, draw_body. simpl name. by rewrite <- !app_assoc.
    + apply Forall_forall. intros edge Hedge%Hiter.
      apply elem_of_concat_list in Hedge as (es & Hes & Hedge).
      apply list_elem_of_fmap in Hes as (simplex & -> & Hsimplex).
      pose proof (proj1 (Forall_forall _ _) Hrange simplex Hsimplex) as Hr.
      pose proof (simplex_edges_in_range _ simplex edge Hr Hedge). lia.
Qed.

End draw_calls.

(** * [generate_knot_pair] and [main] *)

Section quiz_more.
Context (set_iter : list Z → list Z).
Hypothesis set_iter_elem : ∀ l x, x ∈ set_iter l ↔ x ∈ l.
Context (np_cos np_sin : float → float).
Context (Delaunay : list Point → outcome (list (nat * nat * nat))).
Context (edge_iter : list (nat * nat) → list (nat * nat)).
Context (str_strip str_lower : string → string).
Implicit Types (pd : PDCode) (k : Knot) (out : list Message).

Local Abbreviation Knot_init' := (Knot_init set_iter np_cos np_sin).
Local Abbreviation generate_knot_pair' :=
  (generate_knot_pair set_iter np_cos np_sin).
Local Abbreviation draw' := (draw Delaunay edge_iter).
Local Abbreviation main_try' :=
  (main_try set_iter np_cos np_sin Delaunay edge_iter str_strip str_lower).
Local Abbreviation main_loop' :=
  (main_loop set_iter np_cos np_sin Delaunay edge_iter str_strip str_lower).
Local Abbreviation main' :=
  (main set_iter np_cos np_sin Delaunay edge_iter str_strip str_lower).

(** The name at position [i] of [knot_types] has [i + 3] crossings, which
    share no identifier. *)
Lemma knot_types_crossings i nm pd :
  knot_types !! i = Some nm → dict_getitem KNOT_DEFINITIONS nm = Ok pd →
  length pd = (i + 3)%nat ∧ disjoint_crossings pd.
Proof using Type.
  intros Hnm Hget. split.
  - unfold knot_types in Hnm.
    do 8 (destruct i as [|i]; [injection Hnm as <-; vm_compute in Hget;
                                injection Hget as <-; reflexivity|]).
    done.
  - pose proof (proj1 (Forall_forall _ _) knot_types_lookup nm
                  (list_elem_of_lookup_2 _ _ _ Hnm)) as (_ & pd' & Hget' & Hin).
    assert (pd' = pd) as -> by congruence.
    pose proof (proj1 (Forall_forall _ _) KNOT_DEFINITIONS_blocks _ Hin) as Hpd.
    simpl in Hpd. rewrite Hpd. apply dataset_pd_disjoint.
Qed.

(** What [generate_knot_pair] returns, by the positions drawn. *)
Lemma generate_knot_pair_Done fuel d :
  (40 ≤ fuel)%nat → valid_draws (length knot_types) d →
  ∃ i j nm1 nm2 pd1 pd2 k1 k2 equivalent,
    generate_knot_pair' fuel d = Done (k1, k2, equivalent) ∧
    (equivalent = true ↔ i = j) ∧
    knot_types !! i = Some nm1 ∧ knot_types !! j = Some nm2 ∧
    dict_getitem KNOT_DEFINITIONS nm1 = Ok pd1 ∧
    dict_getitem KNOT_DEFINITIONS nm2 = Ok pd2 ∧
    Knot_init' fuel nm1 pd1 = Done k1 ∧ Knot_init' fuel nm2 pd2 = Done k2.
Proof using set_iter_elem.
  intros Hfuel (He & Ht & Hi & Hj & Hij).
  unfold generate_knot_pair. rewrite knot_types_remove, bind_lift_Ok.
  destruct d as [e t [i j]].
  cbn [draw_equivalent draw_knot_type draw_sample fst snd] in *.
  destruct e as [|[|e]]; [| |lia].
  - destruct (knot_types_Knot_init set_iter set_iter_elem np_cos np_sin fuel t Hfuel Ht)
      as (nm & pd & k & Hnm & _ & Hget & _ & Hk & _).
    rewrite (getitem_lookup [true; false] 0 true eq_refl), bind_lift_Ok.
    rewrite (getitem_lookup _ _ _ Hnm), bind_lift_Ok.
    rewrite Hget, bind_lift_Ok, Hk, bind_Done, bind_lift_Ok, Hk, bind_Done.
    exists t, t, nm, nm, pd, pd, k, k, true. by split_and!.
  - destruct (knot_types_Knot_init set_iter set_iter_elem np_cos np_sin fuel i Hfuel Hi)
      as (nm1 & pd1 & k1 & Hnm1 & _ & Hget1 & _ & Hk1 & _).
    destruct (knot_types_Knot_init set_iter set_iter_elem np_cos np_sin fuel j Hfuel Hj)
      as (nm2 & pd2 & k2 & Hnm2 & _ & Hget2 & _ & Hk2 & _).
    rewrite (getitem_lookup [true; false] 1 false eq_refl), bind_lift_Ok.
    rewrite (getitem_lookup _ _ _ Hnm1), bind_lift_Ok.
    rewrite (getitem_lookup _ _ _ Hnm2), bind_lift_Ok.
    rewrite Hget1, bind_lift_Ok, Hk1, bind_Done.
    rewrite Hget2, bind_lift_Ok, Hk2, bind_Done.
    exists i, j, nm1, nm2, pd1, pd2, k1, k2, false. by split_and!.
Qed.

(** The flag, the names and the crossing counts of a returned pair. *)
Lemma generate_knot_pair_counts fuel d :
  (40 ≤ fuel)%nat → valid_draws (length knot_types) d →
  ∃ k1 k2 equivalent,
    generate_knot_pair' fuel d = Done (k1, k2, equivalent) ∧
    (3 ≤ crossings k1 ≤ 10)%nat ∧ (3 ≤ crossings k2 ≤ 10)%nat ∧
    (equivalent = true ↔ name k1 = name k2) ∧
    (equivalent = true ↔ crossings k1 = crossings k2) ∧
    disjoint_crossings (pd_code k1) ∧ disjoint_crossings (pd_code k2) ∧
    Knot_init' fuel (name k1) (pd_code k1) = Done k1 ∧
    Knot_init' fuel (name k2) (pd_code k2) = Done k2.
Proof using set_iter_elem.
  intros Hfuel Hd.
  destruct (generate_knot_pair_Done fuel d Hfuel Hd)
    as (i & j & nm1 & nm2 & pd1 & pd2 & k1 & k2 & eq & Hrun & Heq & Hnm1 & Hnm2
        & Hget1 & Hget2 & Hk1 & Hk2).
  exists k1, k2, eq. split; [done|].
  destruct (knot_types_crossings i nm1 pd1 Hnm1 Hget1) as [Hlen1 Hdisj1].
  destruct (knot_types_crossings j nm2 pd2 Hnm2 Hget2) as [Hlen2 Hdisj2].
  pose proof (lookup_lt_Some _ _ _ Hnm1) as Hi.
  pose proof (lookup_lt_Some _ _ _ Hnm2) as Hj.
  change (length knot_types) with 8%nat in Hi, Hj.
  pose proof Hk1 as (G1 & p1 & _ & _ & E1)%Knot_init_inv.
  pose proof Hk2 as (G2 & p2 & _ & _ & E2)%Knot_init_inv.
  rewrite E1, E2 in *. simpl.
  split_and!; try done; rewrite ?Hlen1, ?Hlen2; try lia.
  - rewrite Heq. split; [intros ->; congruence|].
    intros ->. by eapply NoDup_lookup; [apply knot_types_NoDup|..].
  - rewrite Heq. lia.
Qed.

(** X12: every pair that [generate_knot_pair] returns consists of knots
    with between 3 and 10 crossings, as the rules printed by [main] say; the
    flag is true exactly when the two knots carry the same name, and exactly
    when they have the same number of crossings. *)
Theorem generate_knot_pair_crossings fuel d :
  (40 ≤ fuel)%nat → valid_draws (length knot_types) d →
  ∃ k1 k2 equivalent,
    generate_knot_pair' fuel d = Done (k1, k2, equivalent) ∧
    (3 ≤ crossings k1 ≤ 10)%nat ∧ (3 ≤ crossings k2 ≤ 10)%nat ∧
    crossings k1 = length (pd_code k1) ∧ crossings k2 = length (pd_code k2) ∧
    (equivalent = true ↔ name k1 = name k2) ∧
    (equivalent = true ↔ crossings k1 = crossings k2).
Proof using set_iter_elem.
  intros Hfuel Hd.
  destruct (generate_knot_pair_counts fuel d Hfuel Hd)
    as (k1 & k2 & eq & Hrun & H1 & H2 & Hname & Hcount & _ & _ & Hk1 & Hk2).
  exists k1, k2, eq. split_and!; try done; try lia.
  - apply Knot_init_inv in Hk1 as (? & ? & _ & _ & E).
    by apply (f_equal crossings) in E.
  - apply Knot_init_inv in Hk2 as (? & ? & _ & _ & E).
    by apply (f_equal crossings) in E.
Qed.

(** *** The scoring *)

Lemma count_lines_app f out1 out2 :
  count_lines f (out1 ++ out2) = (count_lines f out1 + count_lines f out2)%nat.
Proof using Type.
  unfold count_lines. rewrite List.filter_app, length_app. lia.
Qed.

(** One judged input: [judge] never ends in an exception (the division of
    the score line is by a total of at least one), and the counters move
    with the lines printed. *)
Lemma judge_spec user_input equivalent name1 name2 score total c score' total' out :
  judge user_input equivalent name1 name2 score total = (c, score', total', out) →
  (c = Next ∨ c = Break) ∧
  total' = (total + count_lines is_score_line out)%nat ∧
  score' = (score + count_lines is_correct_line out)%nat ∧
  (total' ≤ S total)%nat ∧ (score' - score ≤ total' - total)%nat ∧
  (∀ a b, CurrentScore a b ∈ out → a = score' ∧ b = total' ∧ (1 ≤ b)%nat) ∧
  (∀ a b, FinalScore a b ∉ out) ∧ PracticeOver ∉ out.
Proof using Type.
  unfold judge, score_line.
  case_bool_decide as Hq.
  { intros [= <- <- <- <-]. unfold count_lines. simpl.
    split_and!; [by right | lia | lia | lia | lia | | |].
    - by intros a b ?%elem_of_nil.
    - by intros a b ?%elem_of_nil.
    - by intros ?%elem_of_nil. }
  case_bool_decide as Hyn.
  { intros [= <- <- <- <-]. unfold count_lines. simpl.
    split_and!; [by left | lia | lia | lia | lia | | |].
    - by intros a b [=]%list_elem_of_singleton.
    - by intros a b [=]%list_elem_of_singleton.
    - by intros [=]%list_elem_of_singleton. }
  destruct (bool_decide (bool_decide (user_input = "y") = equivalent));
    [|destruct equivalent];
    cbn -[bool_decide];
    intros [= <- <- <- <-]; unfold count_lines; simpl;
    (split_and!; [by left | lia | lia | lia | lia | | |]).
  all: try (intros a b [[=]|[[=]|?%elem_of_nil]%elem_of_cons]%elem_of_cons).
  all: try (intros [[=]|[[=]|?%elem_of_nil]%elem_of_cons]%elem_of_cons).
  all: try done.
  all: subst; split_and!; try done; lia.
Qed.

Lemma main_try_spec fuel r score total c score' total' out :
  main_try' fuel r score total = Done (c, score', total', out) →
  total' = (total + count_lines is_score_line out)%nat ∧
  score' = (score + count_lines is_correct_line out)%nat ∧
  (total' ≤ S total)%nat ∧ (score' - score ≤ total' - total)%nat ∧
  (∀ a b, CurrentScore a b ∈ out → a = score' ∧ b = total' ∧ (1 ≤ b)%nat) ∧
  (∀ a b, FinalScore a b ∉ out) ∧ PracticeOver ∉ out.
Proof using Type.
  assert (total = (total + count_lines is_score_line [])%nat ∧
          score = (score + count_lines is_correct_line [])%nat ∧
          (total ≤ S total)%nat ∧ (score - score ≤ total - total)%nat ∧
          (∀ a b, CurrentScore a b ∈ @nil Message →
                  a = score ∧ b = total ∧ (1 ≤ b)%nat) ∧
          (∀ a b, FinalScore a b ∉ @nil Message) ∧ PracticeOver ∉ @nil Message)
    as Hnil.
  { unfold count_lines. simpl.
    split_and!; try lia; intros; try apply not_elem_of_nil.
    by destruct (not_elem_of_nil (CurrentScore a b)). }
  unfold main_try.
  destruct (generate_knot_pair _ _ _ _ _) as [[[k1 k2] eq]|e|]; [| |done].
  2:{ by intros [= <- <- <- <-]. }
  destruct (round_subplots r); [by intros [= <- <- <- <-]|].
  destruct (draw _ _ k1 _ _) as [ax1 [e|]]; [by intros [= <- <- <- <-]|].
  destruct (draw _ _ k2 _ _) as [ax2 [e|]]; [by intros [= <- <- <- <-]|].
  destruct (round_show r); [by intros [= <- <- <- <-]|].
  destruct (round_input r) as [raw|e].
  - destruct (judge _ _ _ _ _ _) as [[[c0 s0] t0] out0] eqn:Hjudge.
    intros [= <- <- <- <-].
    apply judge_spec in Hjudge as (_ & Ht & Hs & Hle & Hdiff & Hcur & Hfin & Hover).
    change (Figure ax1 ax2 :: out0) with ([Figure ax1 ax2] ++ out0).
    rewrite !count_lines_app. unfold count_lines at 1 3. simpl.
    split_and!; try done.
    + intros a b [[=]|?]%elem_of_cons. eauto.
    + intros a b [[=]|?]%elem_of_cons. by eapply Hfin.
    + by intros [[=]|?]%elem_of_cons.
  - intros [= <- <- <- <-]. unfold count_lines. simpl.
    split_and!; try lia.
    + by intros a b [[=]|?%elem_of_nil]%elem_of_cons.
    + by intros a b [[=]|?%elem_of_nil]%elem_of_cons.
    + by intros [[=]|?%elem_of_nil]%elem_of_cons.
Qed.

Lemma main_loop_spec fuel rounds score total out quit score' total' out' :
  main_loop' fuel rounds score total out = Done (quit, score', total', out') →
  score_inv score total out →
  score_inv score' total' out' ∧ (total' ≤ total + length rounds)%nat.
Proof using Type.
  revert score total out.
  induction rounds as [|r rounds IH]; intros score total out; simpl.
  - intros [= <- <- <- <-] Hinv. split; [done|lia].
  - destruct (main_try' fuel r score total) as [[[[c s1] t1] printed]|e|] eqn:Htry;
      simpl; [|done..].
    apply main_try_spec in Htry as (Ht & Hs & Hle & Hdiff & Hcur & Hfin & Hover).
    intros Hrun (Hst & Htot & Hsc & Hlines & Hnofin & Hnoover).
    assert (∀ tail, count_lines is_score_line tail = 0%nat →
              count_lines is_correct_line tail = 0%nat →
              (∀ a b, CurrentScore a b ∉ tail) → (∀ a b, FinalScore a b ∉ tail) →
              PracticeOver ∉ tail →
              score_inv s1 t1 (out ++ printed ++ tail)) as Hnext.
    { intros tail Hz1 Hz2 Hc Hf Hp.
      unfold score_inv. rewrite !count_lines_app, Hz1, Hz2.
      split_and!; try lia.
      - intros a b [Hin|[Hin|Hin]%elem_of_app]%elem_of_app.
        + destruct (Hlines a b Hin). lia.
        + destruct (Hcur a b Hin) as (-> & -> & ?). lia.
        + by destruct (Hc a b).
      - intros a b [Hin|[Hin|Hin]%elem_of_app]%elem_of_app;
          [by eapply Hnofin | by eapply Hfin | by eapply Hf].
      - intros [Hin|[Hin|Hin]%elem_of_app]%elem_of_app; done. }
    destruct c.
    + apply IH in Hrun as [Hinv' Hbound].
      * split; [done|lia].
      * specialize (Hnext [] eq_refl eq_refl). rewrite app_nil_r in Hnext.
        apply Hnext; intros; apply not_elem_of_nil.
    + injection Hrun as <- <- <- <-. split; [|lia].
      specialize (Hnext [] eq_refl eq_refl). rewrite app_nil_r in Hnext.
      apply Hnext; intros; apply not_elem_of_nil.
    + apply IH in Hrun as [Hinv' Hbound].
      * split; [done|lia].
      * apply Hnext; try done;
          intros; rewrite list_elem_of_singleton; done.
Qed.

(** X14: the counters of the quiz, after any rounds and whatever the
    libraries and the user do.  [score ≤ total ≤] the number of rounds;
    [total] is the number of score lines printed and [score] the number of
    "correct" lines, so no judged answer is lost to an exception; each score
    line shows a total of at least one, hence its percentage never divides
    by zero; a final score is printed only after quitting, with a total of at
    least one, and it shows the counters. *)
Theorem main_score_counts fuel rounds quit score total out :
  main' fuel rounds = Done (quit, score, total, out) →
  (score ≤ total ≤ length rounds)%nat ∧
  total = count_lines is_score_line out ∧
  score = count_lines is_correct_line out ∧
  (∀ a b, CurrentScore a b ∈ out → (1 ≤ b ∧ a ≤ b ∧ b ≤ total)%nat) ∧
  (∀ a b, FinalScore a b ∈ out →
     quit = true ∧ a = score ∧ b = total ∧ (1 ≤ b)%nat) ∧
  (PracticeOver ∈ out ↔ quit = true).
Proof using Type.
  unfold main.
  destruct (main_loop' fuel rounds 0 0 [Banner])
    as [[[[q s] t] o]|e|] eqn:Hloop; simpl; [|done..].
  apply main_loop_spec in Hloop as [(Hst & Htot & Hsc & Hlines & Hfin & Hover) Hbound].
  2:{ unfold score_inv, count_lines. simpl. split_and!; try lia.
      - by intros a b [[=]|?%elem_of_nil]%elem_of_cons.
      - by intros a b [[=]|?%elem_of_nil]%elem_of_cons.
      - by intros [[=]|?%elem_of_nil]%elem_of_cons. }
  destruct q.
  - case_bool_decide as Hpos; intros [= <- <- <- <-];
      unfold count_lines in *; rewrite ?List.filter_app, ?length_app; simpl.
    + split_and!; try lia.
      * intros a b [[Hin|[=]%list_elem_of_singleton]%elem_of_app
                   |[=]%list_elem_of_singleton]%elem_of_app. eauto.
      * intros a b [[Hin|[=]%list_elem_of_singleton]%elem_of_app
                   |[= -> ->]%list_elem_of_singleton]%elem_of_app.
        -- by destruct (Hfin a b).
        -- split_and!; try done; lia.
      * split; [done|]. intros _. apply elem_of_app. left.
        apply elem_of_app. right. by left.
    + split_and!; try lia.
      * intros a b [Hin|[=]%list_elem_of_singleton]%elem_of_app. eauto.
      * intros a b [Hin|[=]%list_elem_of_singleton]%elem_of_app.
        by destruct (Hfin a b).
      * split; [done|]. intros _. apply elem_of_app. right. by left.
  - intros [= <- <- <- <-]. split_and!; try done; try lia.
    intros a b Hin. by destruct (Hfin a b).
Qed.



(** One round on the dataset when the triangulation refuses coincident
    points: the body of the [try] ends in an exception before anything is
    shown or read, and the counters stay. *)
Lemma main_try_raises fuel r score total :
  (∀ pos, ∃ e, Delaunay (replicate 5 pos) = Raises e) →
  (40 ≤ fuel)%nat → valid_draws (length knot_types) (round_draws r) →
  ∃ e, main_try' fuel r score total = Done (Except e, score, total, []).
Proof using set_iter_elem.
  intros Hqhull Hfuel Hd.
  destruct (generate_knot_pair_counts fuel (round_draws r) Hfuel Hd)
    as (k1 & k2 & eq & Hrun & _ & _ & _ & _ & Hdisj1 & _ & Hk1 & _).
  unfold main_try. rewrite Hrun.
  destruct (round_subplots r) as [e|]; [by exists e|].
  destruct (draw_points_replicate set_iter set_iter_elem np_cos np_sin
              fuel (name k1) (pd_code k1) k1 Hdisj1 Hk1) as (i & pos & _ & Hdraw).
  destruct (Hqhull pos) as [e He].
  exists e. unfold draw. rewrite Hdraw. simpl replicate.
  rewrite bool_decide_eq_true_2 by (simpl; lia).
  change [pos; pos; pos; pos; pos] with (replicate 5 pos). by rewrite He.
Qed.

(** X15: if the triangulation raises on five coincident points, no round of
    the quiz gets as far as showing the figures or reading an answer: each
    round ends in the [except] branch with one error message, the counters
    stay at 0, and the loop is never left, whatever the user would type. *)
Theorem main_never_reads_an_answer fuel rounds :
  (∀ pos, ∃ e, Delaunay (replicate 5 pos) = Raises e) →
  (40 ≤ fuel)%nat →
  Forall (λ r, valid_draws (length knot_types) (round_draws r)) rounds →
  ∃ errors,
    main' fuel rounds = Done (false, 0%nat, 0%nat, Banner :: map ErrorCaught errors) ∧
    length errors = length rounds.
Proof using set_iter_elem.
  intros Hqhull Hfuel Hrounds.
  assert (∀ out, ∃ errors,
            main_loop' fuel rounds 0 0 out
              = Done (false, 0%nat, 0%nat, out ++ map ErrorCaught errors) ∧
            length errors = length rounds) as Hloop.
  { induction Hrounds as [|r rounds Hr _ IH]; intros out.
    - exists []. simpl. by rewrite app_nil_r.
    - destruct (main_try_raises fuel r 0 0 Hqhull Hfuel Hr) as [e He].
      destruct (IH (out ++ [ErrorCaught e])) as (errors & Hrun & Hlen).
      exists (e :: errors). simpl. rewrite He. simpl.
      rewrite Hrun, <- app_assoc. simpl. by rewrite Hlen. }
  destruct (Hloop [Banner]) as (errors & Hrun & Hlen).
  exists errors. unfold main. by rewrite Hrun.
Qed.

End quiz_more.

(** * The further properties at sample inputs *)

Lemma build_graph_undirected_witness :
  build_graph set_iter_sample sample_pd = Ok sample_graph ∧
  NoDup (_node sample_graph) ∧
  has_edge sample_graph 3 6 = has_edge sample_graph 6 3.
Proof.
  assert (build_graph set_iter_sample sample_pd = Ok sample_graph) as HG
    by (vm_compute; reflexivity).
  destruct (build_graph_undirected set_iter_sample sample_pd sample_graph HG)
    as (Hnd & Hsym & _).
  split_and!; [exact HG | exact Hnd | apply Hsym].
Defined.

Lemma build_graph_same_crossings_witness :
  build_graph set_iter_sample sample_pd = Ok sample_graph ∧
  build_graph set_iter_sample [[3; 4; 5; 6]; [1; 2; 3; 4]; [3; 4; 5; 6]]
    = Ok sample_graph_reordered ∧
  number_of_edges sample_graph = number_of_edges sample_graph_reordered.
Proof.
  assert (build_graph set_iter_sample sample_pd = Ok sample_graph) as HG1
    by (vm_compute; reflexivity).
  assert (build_graph set_iter_sample [[3; 4; 5; 6]; [1; 2; 3; 4]; [3; 4; 5; 6]]
          = Ok sample_graph_reordered) as HG2 by (vm_compute; reflexivity).
  assert (∀ cross, cross ∈ sample_pd ↔
                   cross ∈ [[3; 4; 5; 6]; [1; 2; 3; 4]; [3; 4; 5; 6]]) as Hsame.
  { intros cross. unfold sample_pd. rewrite !elem_of_cons, !elem_of_nil. tauto. }
  destruct (build_graph_same_crossings set_iter_sample set_iter_sample _ _ _ _
              set_iter_sample_elem set_iter_sample_elem Hsame HG1 HG2)
    as (_ & _ & _ & Hcount).
  split_and!; [exact HG1 | exact HG2 | exact Hcount].
Defined.

Lemma build_graph_forgets_cyclic_order_witness :
  build_graph set_iter_sample sample_pd = Ok sample_graph ∧
  build_graph set_iter_sample [[2; 4; 1; 3]; [6; 5; 4; 3]] = Ok sample_graph_permuted ∧
  ∀ u v, has_edge sample_graph u v = has_edge sample_graph_permuted u v.
Proof.
  assert (build_graph set_iter_sample sample_pd = Ok sample_graph) as HG1
    by (vm_compute; reflexivity).
  assert (build_graph set_iter_sample [[2; 4; 1; 3]; [6; 5; 4; 3]]
          = Ok sample_graph_permuted) as HG2 by (vm_compute; reflexivity).
  assert (Forall2 (λ cross1 cross2, length cross1 = 4%nat ∧ cross1 ≡ₚ cross2)
            sample_pd [[2; 4; 1; 3]; [6; 5; 4; 3]]) as Hperm.
  { unfold sample_pd. repeat constructor;
      (apply NoDup_Permutation;
        [ apply (bool_decide_unpack (NoDup _)); vm_compute; exact I
        | apply (bool_decide_unpack (NoDup _)); vm_compute; exact I
        | intros x; rewrite !elem_of_cons, !elem_of_nil; tauto ]). }
  destruct (build_graph_forgets_cyclic_order set_iter_sample _ _ _ _
              set_iter_sample_elem Hperm HG1 HG2) as (_ & Hedge & _).
  split_and!; [exact HG1 | exact HG2 | exact Hedge].
Defined.

Lemma build_graph_isolated_nodes_witness :
  build_graph set_iter_sample [[1; 2; 3; 4; 5]] = Ok long_tuple_graph ∧
  neighbors long_tuple_graph 5 = Ok [].
Proof.
  assert (build_graph set_iter_sample [[1; 2; 3; 4; 5]] = Ok long_tuple_graph)
    as HG by (vm_compute; reflexivity).
  split; [exact HG|].
  apply (build_graph_isolated_nodes set_iter_sample set_iter_sample_elem
           [[1; 2; 3; 4; 5]] long_tuple_graph 5 HG).
  split.
  - exists [1; 2; 3; 4; 5]. split; [apply list_elem_of_here|].
    do 4 apply list_elem_of_further. apply list_elem_of_here.
  - intros cross ->%list_elem_of_singleton. simpl.
    rewrite !elem_of_cons, elem_of_nil. lia.
Defined.

Lemma trace_path_stays_in_component_witness :
  build_graph set_iter_sample sample_pd = Ok sample_graph ∧
  trace_path 6 sample_graph = Done [1; 2; 3; 4; 5; 6] ∧
  consecutive_edges sample_graph [1; 2; 3; 4; 5; 6].
Proof.
  assert (build_graph set_iter_sample sample_pd = Ok sample_graph) as HG
    by (vm_compute; reflexivity).
  assert (trace_path 6 sample_graph = Done [1; 2; 3; 4; 5; 6]) as Hp
    by (vm_compute; reflexivity).
  destruct (trace_path_stays_in_component set_iter_sample sample_pd sample_graph
              6 _ HG Hp) as (s & _ & _ & Hwalk & _).
  split_and!; [exact HG | exact Hp | exact Hwalk].
Defined.

Lemma trace_path_ends_at_dead_end_witness :
  build_graph set_iter_sample sample_pd = Ok sample_graph ∧
  trace_path 6 sample_graph = Done [1; 2; 3; 4; 5; 6] ∧
  ∃ w last_arc, last w = Some last_arc ∧
    ∀ v, has_edge sample_graph last_arc v = true → v ∈ w.
Proof.
  assert (build_graph set_iter_sample sample_pd = Ok sample_graph) as HG
    by (vm_compute; reflexivity).
  assert (trace_path 6 sample_graph = Done [1; 2; 3; 4; 5; 6]) as Hp
    by (vm_compute; reflexivity).
  destruct (trace_path_ends_at_dead_end set_iter_sample sample_pd sample_graph
              6 _ HG Hp) as (w & first_arc & last_arc & _ & Hlast & _ & Hmax).
  split_and!; [exact HG | exact Hp |].
  exists w, last_arc. split; [exact Hlast | exact Hmax].
Defined.

Lemma trace_path_covers_last_crossing_witness :
  Forall valid_crossing sample_pd ∧
  build_graph set_iter_sample sample_pd = Ok sample_graph ∧
  trace_path 6 sample_graph = Done [1; 2; 3; 4; 5; 6] ∧
  (4 ≤ length [1; 2; 3; 4; 5; 6])%nat.
Proof.
  assert (Forall valid_crossing sample_pd) as Hvalid.
  { apply (bool_decide_unpack (Forall valid_crossing sample_pd)).
    vm_compute. exact I. }
  assert (build_graph set_iter_sample sample_pd = Ok sample_graph) as HG
    by (vm_compute; reflexivity).
  assert (trace_path 6 sample_graph = Done [1; 2; 3; 4; 5; 6]) as Hp
    by (vm_compute; reflexivity).
  destruct (trace_path_covers_last_crossing set_iter_sample set_iter_sample_elem
              sample_pd sample_graph 6 _ Hvalid HG Hp) as (Hlen & _).
  split_and!; [exact Hvalid | exact HG | exact Hp | exact Hlen].
Defined.

Lemma Knot_init_outcome_witness :
  (length (concat sample_pd) ≤ 8)%nat ∧
  ∃ k, Knot_init set_iter_sample cos_sample sin_sample 8 "sample" sample_pd = Done k ∧
       length (positions k) = length sample_pd.
Proof.
  assert (length (concat sample_pd) ≤ 8)%nat as Hfuel by (vm_compute; lia).
  split; [exact Hfuel|].
  destruct (proj2 (Knot_init_outcome set_iter_sample set_iter_sample_elem
                     cos_sample sin_sample 8 "sample" sample_pd Hfuel))
    as (k & Hk & _ & _ & _ & Hpos & _).
  - split; [discriminate|]. repeat constructor; simpl; lia.
  - exists k. split; [exact Hk | exact Hpos].
Defined.

Lemma draw_points_one_per_arc_witness :
  Knot_init set_iter_sample cos_sample sin_sample 6 "sample" sample_pd
    = Done sample_knot ∧
  ∃ points, draw_points sample_knot = Ok points ∧
            length points = length (path sample_knot).
Proof.
  assert (Knot_init set_iter_sample cos_sample sin_sample 6 "sample" sample_pd
          = Done sample_knot) as Hk by (vm_compute; reflexivity).
  split; [exact Hk|].
  destruct (draw_points_one_per_arc set_iter_sample set_iter_sample_elem
              cos_sample sin_sample 6 "sample" sample_pd sample_knot Hk)
    as (points & Hdraw & Hlen & _).
  exists points. split; [exact Hdraw | exact Hlen].
Defined.

Lemma draw_points_coincide_witness :
  Knot_init set_iter_sample cos_sample sin_sample 12 "Trefoil" trefoil_pd
    = Done trefoil_knot ∧
  ∃ pos, draw_points trefoil_knot = Ok (replicate 5 pos).
Proof.
  assert (Knot_init set_iter_sample cos_sample sin_sample 12 "Trefoil" trefoil_pd
          = Done trefoil_knot) as Hk by (vm_compute; reflexivity).
  split; [exact Hk|].
  destruct (draw_points_coincide set_iter_sample set_iter_sample_elem
              cos_sample sin_sample) as [Hgeneral Hdataset].
  assert (("Trefoil", trefoil_pd) ∈ KNOT_DEFINITIONS) as Hin.
  { unfold KNOT_DEFINITIONS. apply list_elem_of_further, list_elem_of_here. }
  destruct (Hgeneral 12%nat "Trefoil" trefoil_pd trefoil_knot
              (Hdataset _ _ Hin) Hk) as (i & pos & _ & Hdraw).
  exists pos. exact Hdraw.
Defined.

Lemma draw_always_triangulates_witness :
  Forall valid_crossing sample_pd ∧
  Knot_init set_iter_sample cos_sample sin_sample 6 "sample" sample_pd
    = Done sample_knot ∧
  ∃ points, draw_points sample_knot = Ok points ∧ (3 < length points)%nat ∧
    draw Delaunay_fails edge_iter_sample sample_knot "A" []
      = (draw_header "A" "sample", Some (External "QhullError")).
Proof.
  assert (Forall valid_crossing sample_pd) as Hvalid.
  { apply (bool_decide_unpack (Forall valid_crossing sample_pd)).
    vm_compute. exact I. }
  assert (Knot_init set_iter_sample cos_sample sin_sample 6 "sample" sample_pd
          = Done sample_knot) as Hk by (vm_compute; reflexivity).
  split_and!; [exact Hvalid | exact Hk |].
  destruct (draw_always_triangulates set_iter_sample set_iter_sample_elem
              cos_sample sin_sample Delaunay_fails edge_iter_sample
              6 "sample" sample_pd sample_knot "A" [] Hvalid Hk)
    as (points & Hdraw & Hlen & Hraise).
  exists points. split_and!; [exact Hdraw | exact Hlen |].
  exact (Hraise _ eq_refl).
Defined.

Lemma draw_calls_witness :
  Knot_init set_iter_sample cos_sample sin_sample 6 "sample" sample_pd
    = Done sample_knot ∧
  ∃ points, draw_points sample_knot = Ok points ∧
    length points = length (path sample_knot) ∧
    length (concat (map crossing_glyph (positions sample_knot)))
      = (4 * crossings sample_knot)%nat.
Proof.
  assert (Knot_init set_iter_sample cos_sample sin_sample 6 "sample" sample_pd
          = Done sample_knot) as Hk by (vm_compute; reflexivity).
  split; [exact Hk|].
  destruct (draw_calls set_iter_sample set_iter_sample_elem cos_sample sin_sample
              Delaunay_two_triangles edge_iter_sample
              6 "sample" sample_pd sample_knot "A" [] Hk)
    as (points & Hdraw & Hlen & Hglyphs & _).
  exists points. split_and!; [exact Hdraw | exact Hlen | exact Hglyphs].
Defined.

Lemma generate_knot_pair_crossings_witness :
  valid_draws (length knot_types) (mkDraws 1 0 (2%nat, 5%nat)) ∧
  ∃ k1 k2 equivalent,
    generate_knot_pair set_iter_sample cos_sample sin_sample 40
      (mkDraws 1 0 (2%nat, 5%nat)) = Done (k1, k2, equivalent) ∧
    (3 ≤ crossings k1 ≤ 10)%nat ∧ (3 ≤ crossings k2 ≤ 10)%nat.
Proof.
  assert (valid_draws (length knot_types) (mkDraws 1 0 (2%nat, 5%nat))) as Hd.
  { unfold valid_draws. simpl. repeat split; lia. }
  split; [exact Hd|].
  destruct (generate_knot_pair_crossings set_iter_sample set_iter_sample_elem
              cos_sample sin_sample 40 _ (le_n 40) Hd)
    as (k1 & k2 & equivalent & Hrun & H1 & H2 & _).
  exists k1, k2, equivalent.
  split; [exact Hrun | split; [exact H1 | exact H2]].
Defined.

Lemma main_score_counts_witness :
  main set_iter_sample cos_sample sin_sample Delaunay_two_triangles
       edge_iter_sample str_same str_same 40 sample_rounds
    = Done (true, 1%nat, 2%nat, sample_transcript) ∧
  2%nat = count_lines is_score_line sample_transcript ∧
  1%nat = count_lines is_correct_line sample_transcript.
Proof.
  assert (main set_iter_sample cos_sample sin_sample Delaunay_two_triangles
               edge_iter_sample str_same str_same 40 sample_rounds
          = Done (true, 1%nat, 2%nat, sample_transcript)) as Hmain
    by (vm_compute; reflexivity).
  destruct (main_score_counts set_iter_sample cos_sample sin_sample
              Delaunay_two_triangles edge_iter_sample str_same str_same
              40 sample_rounds true 1 2 sample_transcript Hmain)
    as (_ & Htotal & Hscore & _).
  split_and!; [exact Hmain | exact Htotal | exact Hscore].
Defined.


Lemma main_never_reads_an_answer_witness :
  Forall (λ r, valid_draws (length knot_types) (round_draws r)) sample_rounds ∧
  ∃ errors,
    main set_iter_sample cos_sample sin_sample Delaunay_fails edge_iter_sample
         str_same str_same 40 sample_rounds
      = Done (false, 0%nat, 0%nat, Banner :: map ErrorCaught errors) ∧
    length errors = length sample_rounds.
Proof.
  assert (Forall (λ r, valid_draws (length knot_types) (round_draws r))
            sample_rounds) as Hrounds.
  { unfold sample_rounds, valid_draws.
    repeat (apply Forall_cons; split; [simpl; repeat split; lia|]).
    apply Forall_nil_2. }
  split; [exact Hrounds|].
  apply (main_never_reads_an_answer set_iter_sample set_iter_sample_elem
           cos_sample sin_sample Delaunay_fails edge_iter_sample str_same str_same
           40 sample_rounds).
  - intros pos. exists (External "QhullError"). reflexivity.
  - apply le_n.
  - exact Hrounds.
Defined.
